(** * SnakeGame: a shallow embedding of [src/components/SnakeGame.tsx]

    The React component keeps its game data in [useState] cells and changes
    them from four callbacks ([resetGame], [startGame], [pauseGame],
    [moveSnake]) and one key listener ([handleKeyPress]).  The embedding keeps
    the cells in a record, threads it together with [localStorage], the toast
    log and the random source through a small state-and-failure monad, and
    writes every callback the way the source writes it. *)

From Stdlib Require Import ZArith QArith Qround Qabs Qpower Lqa String Ascii List Bool Lia.
From Stdlib Require Import SpecFloat.
From Stdlib Require Import DecimalString DecimalPos DecimalN DecimalZ.
From stdpp Require Import base gmap strings list.
Import ListNotations.

Local Open Scope string_scope.
Local Open Scope Z_scope.

(** ** JavaScript values the component uses *)

Module JS.

(** A JavaScript [number] as far as the component can observe it: an
    integer, or [NaN] (which only [parseInt] can produce here).  Integers
    are exact in a double up to 2^53; the model keeps the mathematical
    value beyond that. *)
Inductive number : Type :=
| Num (z : Z)
| NaN.

(** [a > b]: false as soon as one side is [NaN]. *)
Definition gt (a b : number) : bool :=
  match a, b with
  | Num p, Num q => q <? p
  | _, _ => false
  end.

(** [a < b]. *)
Definition lt (a b : number) : bool := gt b a.

(** [Number.prototype.toString] on an integer: decimal digits, a leading
    minus sign for negative values, ["0"] for zero. *)
Definition toString (z : Z) : string :=
  NilZero.string_of_int (Z.to_int z).

(** Truthiness of a string: every string but the empty one. *)
Definition truthy (s : string) : bool :=
  match s with
  | EmptyString => false
  | String _ _ => true
  end.

(** White space skipped by [parseInt] (the ASCII part of it: TAB, LF, VT,
    FF, CR and SPACE). *)
Definition is_white_space (c : ascii) : bool :=
  let n := Z.of_nat (nat_of_ascii c) in
  ((9 <=? n) && (n <=? 13)) || (n =? 32).

Fixpoint trim_start (s : string) : string :=
  match s with
  | String c rest => if is_white_space c then trim_start rest else s
  | EmptyString => s
  end.

(** Value of a character as a digit: [0-9], then [a-z] or [A-Z] for
    10 to 35. *)
Definition digit_value (c : ascii) : option Z :=
  let n := Z.of_nat (nat_of_ascii c) in
  if (48 <=? n) && (n <=? 57) then Some (n - 48)
  else if (97 <=? n) && (n <=? 122) then Some (n - 87)
  else if (65 <=? n) && (n <=? 90) then Some (n - 55)
  else None.

(** The longest prefix of radix-[R] digits, read most significant digit
    first; [None] while no digit has been read. *)
Fixpoint parse_digits (R : Z) (s : string) (acc : option Z) : option Z :=
  match s with
  | EmptyString => acc
  | String c rest =>
      match digit_value c with
      | Some d =>
          if d <? R
          then parse_digits R rest (Some (default 0 acc * R + d))
          else acc
      | None => acc
      end
  end.

(** [parseInt(s)] with no radix argument: skip white space, read a sign,
    strip a [0x]/[0X] prefix (radix 16, otherwise 10), read the digits;
    no digit at all gives [NaN]. *)
Definition parseInt (s : string) : number :=
  let inputString := trim_start s in
  let '(sign, body) :=
    match inputString with
    | String "-"%char rest => (-1, rest)
    | String "+"%char rest => (1, rest)
    | _ => (1, inputString)
    end in
  let '(radix, digits) :=
    match body with
    | String "0"%char (String "x"%char rest) => (16, rest)
    | String "0"%char (String "X"%char rest) => (16, rest)
    | _ => (10, body)
    end in
  match parse_digits radix digits None with
  | Some mathInt => Num (sign * mathInt)
  | None => NaN
  end.

End JS.

(** ** Data model *)

Definition GRID_SIZE : Z := 20.

Record Position : Type := mkPosition { x : Z; y : Z }.

Definition INITIAL_SNAKE : list Position := [mkPosition 10 10].
Definition INITIAL_FOOD : Position := mkPosition 5 5.
Definition INITIAL_DIRECTION : Position := mkPosition 0 (-1).

(** The seven [useState] cells of the component.  Coordinates and scores are
    integers far inside the range where a double is exact; [highScore] alone
    can be [NaN], since it starts from [parseInt]. *)
Record GameState : Type := mkGameState {
  snake : list Position;
  food : Position;
  direction : Position;
  gameRunning : bool;
  score : Z;
  gameOver : bool;
  highScore : JS.number
}.

(** A call of [toast({ title, description, variant })]. *)
Record Toast : Type := mkToast {
  title : string;
  description : string;
  variant : option string
}.

(** What the component does to its collaborators, in call order. *)
Inductive Event : Type :=
| SetItem (key value : string)
| Notify (t : Toast).

(** The component together with its environment: the state cells, the
    contents of [localStorage], the calls made so far and the values
    [Math.random()] is going to return. *)
Record World : Type := mkWorld {
  game : GameState;
  localStorage : gmap string string;
  trace : list Event;
  random : list Q
}.

(** The [setItem] calls of a trace, oldest first. *)
Definition writes (tr : list Event) : list (string * string) :=
  omap (fun e => match e with SetItem k v => Some (k, v) | Notify _ => None end) tr.

(** ** State-and-failure monad

    A computation reads and changes the [World]; it fails ([None]) only when
    [generateFood] asks for more random values than the world holds, which
    stands for a loop that has not come to an end. *)

Definition M (A : Type) : Type := World -> option (A * World).

#[global] Instance M_ret : MRet M := fun A a w => Some (a, w).
#[global] Instance M_bind : MBind M := fun A B f m w =>
  match m w with
  | Some (a, w') => f a w'
  | None => None
  end.

Definition gets {A : Type} (f : World -> A) : M A := fun w => Some (f w, w).
Definition modify (f : World -> World) : M unit := fun w => Some (tt, f w).

Definition modify_game (f : GameState -> GameState) : M unit :=
  modify (fun w => mkWorld (f (game w)) (localStorage w) (trace w) (random w)).

Definition emit (e : Event) : M unit :=
  modify (fun w => mkWorld (game w) (localStorage w) (trace w ++ [e]) (random w)).

(** The world a computation leaves behind. *)
Definition exec {A : Type} (m : M A) (w : World) : option World :=
  snd <$> m w.

(** *** The state setters *)

Definition setSnake (v : list Position) : M unit :=
  modify_game (fun s => mkGameState v (food s) (direction s) (gameRunning s)
                                    (score s) (gameOver s) (highScore s)).
Definition setFood (v : Position) : M unit :=
  modify_game (fun s => mkGameState (snake s) v (direction s) (gameRunning s)
                                    (score s) (gameOver s) (highScore s)).
Definition setDirection (v : Position) : M unit :=
  modify_game (fun s => mkGameState (snake s) (food s) v (gameRunning s)
                                    (score s) (gameOver s) (highScore s)).
Definition setGameRunning (v : bool) : M unit :=
  modify_game (fun s => mkGameState (snake s) (food s) (direction s) v
                                    (score s) (gameOver s) (highScore s)).
Definition setScore (v : Z) : M unit :=
  modify_game (fun s => mkGameState (snake s) (food s) (direction s) (gameRunning s)
                                    v (gameOver s) (highScore s)).
Definition setGameOver (v : bool) : M unit :=
  modify_game (fun s => mkGameState (snake s) (food s) (direction s) (gameRunning s)
                                    (score s) v (highScore s)).
Definition setHighScore (v : JS.number) : M unit :=
  modify_game (fun s => mkGameState (snake s) (food s) (direction s) (gameRunning s)
                                    (score s) (gameOver s) v).

(** The functional form [setSnake(currentSnake => ...)]: the updater gets the
    cell's current value, may itself call setters, and its result becomes
    the cell's value.  Updaters run once, where they are passed; React may
    put one off until the next render, which changes the order of the calls
    in the trace but neither the calls nor the state reached. *)
Definition setSnakeWith (updater : list Position -> M (list Position)) : M unit :=
  currentSnake ← gets (fun w => snake (game w));
  next ← updater currentSnake;
  setSnake next.

Definition setScoreWith (updater : Z -> M Z) : M unit :=
  prev ← gets (fun w => score (game w));
  next ← updater prev;
  setScore next.

(** *** Collaborators *)

Definition toast (t : Toast) : M unit := emit (Notify t).

Definition localStorage_getItem (key : string) (ls : gmap string string) : option string :=
  ls !! key.

Definition localStorage_setItem (key value : string) : M unit :=
  modify (fun w => mkWorld (game w) (<[key := value]> (localStorage w)) (trace w) (random w)) ;;
  emit (SetItem key value).

(** *** Doubles

    [Math.random()] returns a double and [*] multiplies doubles: the product
    is the exact product rounded to the nearest double, to the one with the
    even significand when half-way.  A double is kept as the rational it
    stands for. *)

(** [floor (log2 p)] for [p > 0]: the bit length of the numerator minus the
    bit length of the denominator, or one less. *)
Definition binade (p : Q) : Z :=
  let e := Z.log2 (Qnum p) - Z.log2 (Zpos (Qden p)) in
  if Qle_bool (2 ^ e) p then e else e - 1.

(** The integer nearest to [q]; the even one of the two when [q] lies
    half-way between them. *)
Definition round_half_even (q : Q) : Z :=
  let f := Qfloor q in
  match (q - inject_Z f ?= 1 # 2)%Q with
  | Lt => f
  | Gt => f + 1
  | Eq => if Z.even f then f else f + 1
  end.

(** The double nearest to [p], for [p] below 2^1024 in absolute value: 53
    significant bits, and steps of 2^-1074 below 2^-1022. *)
Definition to_double (p : Q) : Q :=
  let a := Qabs p in
  if Qeq_bool a 0 then 0%Q
  else
    let ulp := (2 ^ Z.max (binade a - 52) (-1074))%Q in
    (inject_Z (Z.sgn (Qnum p) * round_half_even (a / ulp)) * ulp)%Q.

(** The value of a finite binary64 number of the Standard Library's
    [SpecFloat], and the binary64 number of a rational that is one; they
    serve to compare [to_double] with [SFmul]. *)
Definition Q_of_binary64 (f : spec_float) : Q :=
  match f with
  | S754_finite s m e => ((if s then -1 else 1) * inject_Z (Zpos m) * 2 ^ e)%Q
  | _ => 0%Q
  end.

Definition binary64_of_Q (r : Q) : spec_float :=
  binary_normalize 53 1024 (Qnum r) (- Z.log2 (Zpos (Qden r))) false.

(** The doubles written [0.95] and [0.7]. *)
Definition double_0_95 : Q := 8556839292003942 # 9007199254740992.
Definition double_0_7 : Q := 6305039478318694 # 9007199254740992.

(** [Math.floor(r * GRID_SIZE)], for a value [r] of [Math.random()]. *)
Definition random_coordinate (r : Q) : Z :=
  Qfloor (to_double (r * inject_Z GRID_SIZE)).

(** ** The component *)

(** The callback [segment => segment.x === p.x && segment.y === p.y]. *)
Definition at_cell (p : Position) (segment : Position) : bool :=
  (x segment =? x p) && (y segment =? y p).

(** Initial value of the [highScore] cell (lines 23-26). *)
Definition initialHighScore (ls : gmap string string) : JS.number :=
  match localStorage_getItem "snakeHighScore" ls with
  | Some saved => if JS.truthy saved then JS.parseInt saved else JS.Num 0
  | None => JS.Num 0
  end.

(** The state at component creation (lines 17-26). *)
Definition initialState (ls : gmap string string) : GameState :=
  mkGameState INITIAL_SNAKE INITIAL_FOOD INITIAL_DIRECTION false 0 false
              (initialHighScore ls).

Definition mount (ls : gmap string string) (rs : list Q) : World :=
  mkWorld (initialState ls) ls [] rs.

(** [generateFood] (lines 31-40), as a function of the snake its closure
    holds and of the random values still to come: each round of the
    [do ... while] draws [x] then [y] and goes round again while the cell is
    on the snake.  [None]: the values ran out before a free cell came up. *)
Fixpoint generateFood_loop (snake : list Position) (rs : list Q)
  : option (Position * list Q) :=
  match rs with
  | rx :: ry :: rest =>
      let newFood := mkPosition (random_coordinate rx) (random_coordinate ry) in
      if existsb (at_cell newFood) snake
      then generateFood_loop snake rest
      else Some (newFood, rest)
  | _ => None
  end.

Definition generateFood (snake : list Position) : M Position := fun w =>
  match generateFood_loop snake (random w) with
  | Some (newFood, rest) =>
      Some (newFood, mkWorld (game w) (localStorage w) (trace w) rest)
  | None => None
  end.

(** [resetGame] (lines 42-49). *)
Definition resetGame : M unit :=
  setSnake INITIAL_SNAKE ;;
  setFood INITIAL_FOOD ;;
  setDirection INITIAL_DIRECTION ;;
  setScore 0 ;;
  setGameOver false ;;
  setGameRunning false.

(** [startGame] (lines 51-54); [gameOver] is the value of the render the
    callback belongs to. *)
Definition startGame : M unit :=
  render ← gets game;
  (if gameOver render then resetGame else mret tt) ;;
  setGameRunning true.

(** [pauseGame] (lines 56-58). *)
Definition pauseGame : M unit := setGameRunning false.

(** [moveSnake] (lines 60-122).  [render] holds what the callback's closure
    captured: [direction], [food], [gameRunning], [gameOver], [score],
    [highScore], and, through [generateFood], [snake].

    On an empty array the source reads [newSnake[0]] as [undefined], so both
    coordinates of [head] are [NaN]: every comparison of the wall, self and
    food checks is false, [head] is unshifted and popped again, and the
    updater returns an empty array without calling any setter. *)
Definition moveSnake : M unit :=
  render ← gets game;
  if negb (gameRunning render) || gameOver render then mret tt else
  setSnakeWith (fun currentSnake =>
    let newSnake := currentSnake in
    match newSnake with
    | [] => mret []
    | first :: _ =>
        (* Move head *)
        let head := mkPosition (x first + x (direction render))
                               (y first + y (direction render)) in
        (* Check wall collision *)
        if (x head <? 0) || (x head >=? GRID_SIZE) || (y head <? 0) || (y head >=? GRID_SIZE)
        then
          setGameOver true ;;
          setGameRunning false ;;
          toast (mkToast "Game Over!"
                   ("You hit the wall! Final score: " ++ JS.toString (score render))
                   (Some "destructive")) ;;
          mret currentSnake
        (* Check self collision *)
        else if existsb (at_cell head) newSnake
        then
          setGameOver true ;;
          setGameRunning false ;;
          toast (mkToast "Game Over!"
                   ("You hit yourself! Final score: " ++ JS.toString (score render))
                   (Some "destructive")) ;;
          mret currentSnake
        else
          let newSnake := head :: newSnake in
          (* Check food collision *)
          if (x head =? x (food render)) && (y head =? y (food render))
          then
            setScoreWith (fun prev =>
              let newScore := prev + 10 in
              (if JS.gt (JS.Num newScore) (highScore render)
               then
                 setHighScore (JS.Num newScore) ;;
                 localStorage_setItem "snakeHighScore" (JS.toString newScore) ;;
                 toast (mkToast "New High Score!"
                          ("Amazing! New record: " ++ JS.toString newScore) None)
               else mret tt) ;;
              mret newScore) ;;
            newFood ← generateFood (snake render);
            setFood newFood ;;
            toast (mkToast "Yummy!" "+10 points" None) ;;
            mret newSnake
          else
            mret (removelast newSnake)
    end).

(** [handleKeyPress] (lines 125-146), on the [key] of the event. *)
Definition handleKeyPress (key : string) : M unit :=
  render ← gets game;
  if negb (gameRunning render) then mret tt else
  if String.eqb key "ArrowUp" then
    if y (direction render) =? 0 then setDirection (mkPosition 0 (-1)) else mret tt
  else if String.eqb key "ArrowDown" then
    if y (direction render) =? 0 then setDirection (mkPosition 0 1) else mret tt
  else if String.eqb key "ArrowLeft" then
    if x (direction render) =? 0 then setDirection (mkPosition (-1) 0) else mret tt
  else if String.eqb key "ArrowRight" then
    if x (direction render) =? 0 then setDirection (mkPosition 1 0) else mret tt
  else if String.eqb key " " then pauseGame
  else mret tt.

(** ** The component as a transition system *)

Inductive Op : Type :=
| Tick
| Start
| Pause
| Reset
| Key (key : string).

Definition step (op : Op) : World -> option World :=
  match op with
  | Tick => exec moveSnake
  | Start => exec startGame
  | Pause => exec pauseGame
  | Reset => exec resetGame
  | Key key => exec (handleKeyPress key)
  end.

Fixpoint run (ops : list Op) (w : World) : option World :=
  match ops with
  | [] => Some w
  | op :: rest =>
      match step op w with
      | Some w' => run rest w'
      | None => None
      end
  end.

(** ** Vocabulary of the statements *)

(** A cell of the board. *)
Definition in_grid (p : Position) : Prop :=
  0 <= x p < GRID_SIZE /\ 0 <= y p < GRID_SIZE.

(** The cell one step from [p] along [d], with plain integer addition. *)
Definition advance (p d : Position) : Position :=
  mkPosition (x p + x d) (y p + y d).

(** [over] implies not [running]. *)
Definition over_stops (s : GameState) : Prop :=
  gameOver s = true -> gameRunning s = false.

(** [b] is [a], or a larger number than [a]. *)
Definition not_decreased (a b : JS.number) : Prop :=
  b = a \/ exists p q, a = JS.Num p /\ b = JS.Num q /\ p < q.

(** *** The worlds a callback can leave behind *)

(** The world after a collision: the game is over and stopped, one toast
    went out, nothing else moved. *)
Definition collided (reason : string) (w : World) : World :=
  let s := game w in
  mkWorld
    (mkGameState (snake s) (food s) (direction s) false (score s) true (highScore s))
    (localStorage w)
    (trace w ++ [Notify (mkToast "Game Over!" (reason ++ JS.toString (score s))
                                 (Some "destructive"))])
    (random w).

(** The world after a plain move to [head]. *)
Definition moved (head : Position) (w : World) : World :=
  let s := game w in
  mkWorld
    (mkGameState (removelast (head :: snake s)) (food s) (direction s)
                 (gameRunning s) (score s) (gameOver s) (highScore s))
    (localStorage w) (trace w) (random w).

(** The world after eating at [head], with [newFood] drawn and [rest] left of
    the random values. *)
Definition fed (head newFood : Position) (rest : list Q) (w : World) : World :=
  let s := game w in
  let newScore := score s + 10 in
  if JS.gt (JS.Num newScore) (highScore s)
  then
    mkWorld
      (mkGameState (head :: snake s) newFood (direction s) (gameRunning s)
                   newScore (gameOver s) (JS.Num newScore))
      (<["snakeHighScore" := JS.toString newScore]> (localStorage w))
      (trace w ++ [SetItem "snakeHighScore" (JS.toString newScore);
                   Notify (mkToast "New High Score!"
                             ("Amazing! New record: " ++ JS.toString newScore) None);
                   Notify (mkToast "Yummy!" "+10 points" None)])
      rest
  else
    mkWorld
      (mkGameState (head :: snake s) newFood (direction s) (gameRunning s)
                   newScore (gameOver s) (highScore s))
      (localStorage w)
      (trace w ++ [Notify (mkToast "Yummy!" "+10 points" None)])
      rest.

(** The other callbacks always return. *)

Definition after_reset (w : World) : World :=
  mkWorld (mkGameState INITIAL_SNAKE INITIAL_FOOD INITIAL_DIRECTION false 0 false
                       (highScore (game w)))
          (localStorage w) (trace w) (random w).

Definition with_running (b : bool) (w : World) : World :=
  let s := game w in
  mkWorld (mkGameState (snake s) (food s) (direction s) b (score s) (gameOver s)
                       (highScore s))
          (localStorage w) (trace w) (random w).

Definition with_direction (d : Position) (w : World) : World :=
  let s := game w in
  mkWorld (mkGameState (snake s) (food s) d (gameRunning s) (score s) (gameOver s)
                       (highScore s))
          (localStorage w) (trace w) (random w).

(** The five ways a tick can end, as a relation between the worlds before
    and after it. *)
Inductive Ticked (w : World) : World -> Prop :=
| TickIdle :
    gameRunning (game w) = false \/ gameOver (game w) = true \/ snake (game w) = [] ->
    Ticked w w
| TickWall first others :
    gameRunning (game w) = true -> gameOver (game w) = false ->
    snake (game w) = first :: others ->
    ~ in_grid (advance first (direction (game w))) ->
    Ticked w (collided "You hit the wall! Final score: " w)
| TickSelf first others :
    gameRunning (game w) = true -> gameOver (game w) = false ->
    snake (game w) = first :: others ->
    in_grid (advance first (direction (game w))) ->
    In (advance first (direction (game w))) (first :: others) ->
    Ticked w (collided "You hit yourself! Final score: " w)
| TickMove first others :
    gameRunning (game w) = true -> gameOver (game w) = false ->
    snake (game w) = first :: others ->
    in_grid (advance first (direction (game w))) ->
    ~ In (advance first (direction (game w))) (first :: others) ->
    advance first (direction (game w)) <> food (game w) ->
    Ticked w (moved (advance first (direction (game w))) w)
| TickEat first others newFood rest :
    gameRunning (game w) = true -> gameOver (game w) = false ->
    snake (game w) = first :: others ->
    in_grid (advance first (direction (game w))) ->
    ~ In (advance first (direction (game w))) (first :: others) ->
    advance first (direction (game w)) = food (game w) ->
    generateFood_loop (first :: others) (random w) = Some (newFood, rest) ->
    Ticked w (fed (advance first (direction (game w))) newFood rest w).

(** *** Keys *)

(** The vector each arrow key asks for (the literals of lines 130-139). *)
Definition arrow_vector (key : string) : option Position :=
  if String.eqb key "ArrowUp" then Some (mkPosition 0 (-1))
  else if String.eqb key "ArrowDown" then Some (mkPosition 0 1)
  else if String.eqb key "ArrowLeft" then Some (mkPosition (-1) 0)
  else if String.eqb key "ArrowRight" then Some (mkPosition 1 0)
  else None.

Definition opposite (d : Position) : Position := mkPosition (- x d) (- y d).

(** *** Sample worlds *)

(** A running game with empty storage and an empty trace. *)
Definition playing (sn : list Position) (fd dir : Position) (sc : Z)
    (hs : JS.number) (rs : list Q) : World :=
  mkWorld (mkGameState sn fd dir true sc false hs) ∅ [] rs.

(** One cell of snake, the food right in front of it. *)
Definition about_to_eat : World :=
  playing [mkPosition 1 1] (mkPosition 2 1) (mkPosition 1 0) 0 (JS.Num 0)
          [1 # 4; 1 # 4]%Q.

(** The same with a high score out of reach. *)
Definition about_to_eat_below_record : World :=
  playing [mkPosition 1 1] (mkPosition 2 1) (mkPosition 1 0) 0 (JS.Num 50)
          [1 # 4; 1 # 4]%Q.

(** A snake of five cells about to run into its fourth. *)
Definition coiled : World :=
  playing [mkPosition 5 5; mkPosition 5 6; mkPosition 6 6; mkPosition 6 5; mkPosition 6 4]
          (mkPosition 0 0) (mkPosition 1 0) 40 (JS.Num 40) [].

(** Three cells moving right over free cells. *)
Definition cruising : World :=
  playing [mkPosition 3 3; mkPosition 2 3; mkPosition 1 3]
          (mkPosition 9 9) (mkPosition 1 0) 20 (JS.Num 20) [].

(** The keys and ticks that take a fresh game to the first food. *)
Definition to_first_food : list Op :=
  [Start; Key "ArrowLeft"] ++ repeat Tick 5 ++ [Key "ArrowUp"] ++ repeat Tick 5.

(** ** The rest of the component: what it draws and the timer it keeps *)

(** One [<div key=... className=... />] of the board. *)
Record GridCell : Type := mkGridCell { cell_key : string; className : string }.

(** The body of the two loops of [renderGrid] (lines 173-187) for the cell
    in column [cx] of row [cy].  On an empty snake [snake[0]?.x] is
    [undefined], which equals no number. *)
Definition cellClass (s : GameState) (cx cy : Z) : string :=
  let isSnakeHead :=
    match snake s with
    | first :: _ => (x first =? cx) && (y first =? cy)
    | [] => false
    end in
  let isSnakeBody :=
    existsb (fun segment => (x segment =? cx) && (y segment =? cy)) (tail (snake s)) in
  let isFood := (x (food s) =? cx) && (y (food s) =? cy) in
  let cellClass := "w-4 h-4 border border-game-grid" in
  if isSnakeHead then cellClass ++ " bg-game-snake-head shadow-lg"
  else if isSnakeBody then cellClass ++ " bg-game-snake"
  else if isFood then cellClass ++ " bg-game-food animate-pulse shadow-lg"
  else cellClass ++ " bg-game-bg".

(** [renderGrid] (lines 169-197): rows from top to bottom, each from left to
    right, every cell keyed [`${x}-${y}`]. *)
Definition renderGrid (s : GameState) : list GridCell :=
  flat_map
    (fun cy =>
       map (fun cx => mkGridCell (JS.toString cx ++ "-" ++ JS.toString cy)
                                 (cellClass s cx cy))
           (seqZ 0 GRID_SIZE))
    (seqZ 0 GRID_SIZE).

(** A [<Button onClick=...>] of the side panel. *)
Record Button : Type := mkButton { label : string; onClick : Op }.

(** The buttons of the side panel (lines 212-231), top to bottom. *)
Definition controls (s : GameState) : list Button :=
  ((if negb (gameRunning s) && negb (gameOver s)
    then [mkButton "Start Game" Start] else [])
   ++ (if gameRunning s then [mkButton "Pause (Space)" Pause] else [])
   ++ (if gameOver s then [mkButton "Play Again" Start] else [])
   ++ [mkButton "Reset" Reset])%list.

(** The browser's interval timers as the component sees them: the ids that
    are live, the id [setInterval] hands out next, and [gameLoopRef.current].
    Ids are positive, so an id is always truthy. *)
Record Timers : Type := mkTimers {
  live : gset positive;
  next_timer : positive;
  gameLoopRef : option positive
}.

Definition no_timers : Timers := mkTimers ∅ 1%positive None.

Definition setInterval (t : Timers) : positive * Timers :=
  (next_timer t,
   mkTimers ({[next_timer t]} ∪ live t) (Pos.succ (next_timer t)) (gameLoopRef t)).

Definition clearInterval (id : positive) (t : Timers) : Timers :=
  mkTimers (live t ∖ {[id]}) (next_timer t) (gameLoopRef t).

(** The body of the game-loop effect (lines 153-159). *)
Definition gameLoop_effect (gameRunning : bool) (t : Timers) : Timers :=
  if gameRunning
  then let '(id, t') := setInterval t in
       mkTimers (live t') (next_timer t') (Some id)
  else match gameLoopRef t with
       | Some id => clearInterval id t
       | None => t
       end.

(** Its cleanup (lines 161-165). *)
Definition gameLoop_cleanup (t : Timers) : Timers :=
  match gameLoopRef t with
  | Some id => clearInterval id t
  | None => t
  end.

(** The effect over the life of the component: its body after the first
    render, then, for each later render whose dependencies changed, the
    cleanup of the previous run followed by the body.  The list holds the
    [gameRunning] of those later renders. *)
Definition gameLoop_renders (first : bool) (later : list bool) : Timers :=
  fold_left (fun t gameRunning => gameLoop_effect gameRunning (gameLoop_cleanup t))
            later (gameLoop_effect first no_timers).

(** ** More vocabulary *)

(** The four directions of the game. *)
Definition unit_vector (d : Position) : Prop :=
  d = mkPosition 0 (-1) \/ d = mkPosition 0 1
  \/ d = mkPosition (-1) 0 \/ d = mkPosition 1 0.

(** Two cells one orthogonal step apart. *)
Definition adjacent (p q : Position) : Prop :=
  Z.abs (x p - x q) + Z.abs (y p - y q) = 1.

(** Each cell of the list is next to the one after it. *)
Fixpoint contiguous (l : list Position) : Prop :=
  match l with
  | p :: (q :: _) as rest => adjacent p q /\ contiguous rest
  | _ => True
  end.

(** What holds of every value of [Math.random()]: it is a double that is at
    least 0 and less than 1, and the largest double less than 1 is
    1 - 2^-53. *)
Definition random_value (r : Q) : Prop :=
  (0 <= r)%Q /\ (r <= 1 - (1 # 9007199254740992))%Q.

(** Operations other than start and reset. *)
Definition plays_on (op : Op) : Prop :=
  op = Tick \/ op = Pause \/ exists key, op = Key key.

(** The shape every game state has while the game is played. *)
Definition well_formed (s : GameState) : Prop :=
  snake s <> []
  /\ Forall in_grid (snake s)
  /\ List.NoDup (snake s)
  /\ contiguous (snake s)
  /\ unit_vector (direction s)
  /\ score s = 10 * (Z.of_nat (length (snake s)) - 1).

(** How many cells of a rendered board carry the class [c]. *)
Definition count_class (c : string) (cells : list GridCell) : nat :=
  length (List.filter (fun cell => String.eqb (className cell) c) cells).

(** Every cell of the board, row by row. *)
Definition board : list Position :=
  flat_map (fun cy => map (fun cx => mkPosition cx cy) (seqZ 0 GRID_SIZE))
           (seqZ 0 GRID_SIZE).

(** The four values [cellClass] can take. *)
Definition head_class : string :=
  "w-4 h-4 border border-game-grid" ++ " bg-game-snake-head shadow-lg".
Definition body_class : string :=
  "w-4 h-4 border border-game-grid" ++ " bg-game-snake".
Definition food_class : string :=
  "w-4 h-4 border border-game-grid" ++ " bg-game-food animate-pulse shadow-lg".
Definition empty_class : string :=
  "w-4 h-4 border border-game-grid" ++ " bg-game-bg".

(** * Proofs *)

Example parseInt_120 : JS.parseInt "120" = JS.Num 120.
Proof. reflexivity. Qed.

Example parseInt_prefix : JS.parseInt "  -12px" = JS.Num (-12).
Proof. reflexivity. Qed.

Example parseInt_hex : JS.parseInt "0x1f" = JS.Num 31.
Proof. reflexivity. Qed.

Example toString_120 : JS.toString 120 = "120".
Proof. reflexivity. Qed.

(** ** Basic facts *)

Arguments JS.toString : simpl never.

Lemma at_cell_true (p q : Position) : at_cell p q = true <-> q = p.
Proof.
  unfold at_cell. destruct p as [px py], q as [qx qy]; simpl.
  rewrite andb_true_iff, !Z.eqb_eq. split.
  - intros [-> ->]. reflexivity.
  - intros [= -> ->]. split; reflexivity.
Qed.

Lemma on_snake_In (p : Position) (l : list Position) :
  existsb (at_cell p) l = true <-> In p l.
Proof.
  rewrite existsb_exists. split.
  - intros (q & Hq & Heq). apply at_cell_true in Heq. subst q. exact Hq.
  - intros Hin. exists p. split; [exact Hin | now apply at_cell_true].
Qed.

Lemma off_snake_not_In (p : Position) (l : list Position) :
  existsb (at_cell p) l = false <-> ~ In p l.
Proof.
  rewrite <- on_snake_In. destruct (existsb (at_cell p) l); split; intros H;
    try reflexivity; try discriminate; try (intros [=]); now destruct H.
Qed.

Lemma wall_check_false (p : Position) :
  (x p <? 0) || (x p >=? GRID_SIZE) || (y p <? 0) || (y p >=? GRID_SIZE) = false
  <-> in_grid p.
Proof.
  unfold in_grid, GRID_SIZE. rewrite !orb_false_iff, !Z.ltb_ge, !Z.geb_leb, !Z.leb_gt. lia.
Qed.

Lemma wall_check_true (p : Position) :
  (x p <? 0) || (x p >=? GRID_SIZE) || (y p <? 0) || (y p >=? GRID_SIZE) = true
  <-> ~ in_grid p.
Proof.
  rewrite <- wall_check_false.
  destruct ((x p <? 0) || (x p >=? GRID_SIZE) || (y p <? 0) || (y p >=? GRID_SIZE));
    split; intros H; try reflexivity; try discriminate; try (intros [=]); now destruct H.
Qed.

Lemma food_check_true (p q : Position) :
  (x p =? x q) && (y p =? y q) = true <-> p = q.
Proof. apply (at_cell_true q p). Qed.

(** [generateFood] never hands back a cell of the snake it was given. *)
Lemma generateFood_loop_off_snake (sn : list Position) (rs rest : list Q) (f : Position) :
  generateFood_loop sn rs = Some (f, rest) -> ~ In f sn.
Proof.
  revert rest f. remember (length rs) as n eqn:Hn. revert rs Hn.
  induction n as [n IH] using lt_wf_ind. intros rs Hn rest f.
  destruct rs as [|rx [|ry tl]]; simpl; try discriminate.
  destruct (existsb _ sn) eqn:Hocc.
  - apply (IH (length tl)); [subst n; simpl; lia | reflexivity].
  - intros [= <- <-]. now apply off_snake_not_In.
Qed.

(** The loop comes to an end as soon as the random values hold a free cell:
    here, when the first pair already is one. *)
Lemma generateFood_loop_first_free (sn : list Position) (rx ry : Q) (rest : list Q) :
  ~ In (mkPosition (random_coordinate rx) (random_coordinate ry)) sn ->
  generateFood_loop sn (rx :: ry :: rest)
  = Some (mkPosition (random_coordinate rx) (random_coordinate ry), rest).
Proof.
  intros Hfree. simpl. apply off_snake_not_In in Hfree. now rewrite Hfree.
Qed.

(** ** What one tick does, case by case *)

Ltac open_world w :=
  let sn := fresh "sn" in let fd := fresh "fd" in let dir := fresh "dir" in
  let run := fresh "running" in let sc := fresh "sc" in let ov := fresh "over" in
  let hs := fresh "hs" in let ls := fresh "ls" in let tr := fresh "tr" in
  let rs := fresh "rs" in
  destruct w as [[sn fd dir run sc ov hs] ls tr rs]; simpl in *.

Ltac unfold_ops :=
  unfold exec, moveSnake, handleKeyPress, startGame, resetGame, pauseGame,
    setSnakeWith, setScoreWith, localStorage_setItem, toast, emit,
    setSnake, setFood, setDirection, setGameRunning, setScore, setGameOver,
    setHighScore, generateFood, modify_game, modify, gets,
    mbind, mret, M_bind, M_ret; simpl.


Lemma moveSnake_idle (w : World) :
  gameRunning (game w) = false \/ gameOver (game w) = true ->
  moveSnake w = Some (tt, w).
Proof.
  intros H. open_world w. unfold_ops.
  destruct H as [-> | ->]; simpl; [reflexivity | now rewrite orb_true_r].
Qed.

Lemma moveSnake_empty (w : World) :
  snake (game w) = [] -> moveSnake w = Some (tt, w).
Proof.
  intros H. open_world w. subst. unfold_ops.
  destruct (negb running || over); reflexivity.
Qed.

Section Tick.

Variable w : World.
Variables (first : Position) (others : list Position).
Hypothesis Hrunning : gameRunning (game w) = true.
Hypothesis Hover : gameOver (game w) = false.
Hypothesis Hsnake : snake (game w) = first :: others.

Local Abbreviation head := (advance first (direction (game w))).

Lemma moveSnake_wall :
  ~ in_grid head -> moveSnake w = Some (tt, collided "You hit the wall! Final score: " w).
Proof.
  intros Hwall. apply wall_check_true in Hwall.   open_world w. subst. unfold_ops. unfold advance in Hwall. simpl in Hwall.
  rewrite Hwall. reflexivity.
Qed.

Lemma moveSnake_self :
  in_grid head -> In head (first :: others) ->
  moveSnake w = Some (tt, collided "You hit yourself! Final score: " w).
Proof.
  intros Hgrid Hself. apply wall_check_false in Hgrid. apply on_snake_In in Hself.
  open_world w. subst. unfold_ops. unfold advance in *. simpl in *.
  rewrite Hgrid. simpl in Hself. rewrite Hself. reflexivity.
Qed.

Lemma moveSnake_move :
  in_grid head -> ~ In head (first :: others) -> head <> food (game w) ->
  moveSnake w = Some (tt, moved head w).
Proof.
  intros Hgrid Hfree Hfood. apply wall_check_false in Hgrid.
  apply off_snake_not_In in Hfree.
  assert (Hf : (x head =? x (food (game w))) && (y head =? y (food (game w))) = false).
  { destruct (_ && _) eqn:E; [|reflexivity]. now apply food_check_true in E. }
  open_world w. subst. unfold_ops. unfold advance in *. simpl in *.
  rewrite Hgrid. simpl in Hfree. rewrite Hfree. rewrite Hf. reflexivity.
Qed.

Lemma moveSnake_eat (newFood : Position) (rest : list Q) :
  in_grid head -> ~ In head (first :: others) -> head = food (game w) ->
  generateFood_loop (first :: others) (random w) = Some (newFood, rest) ->
  moveSnake w = Some (tt, fed head newFood rest w).
Proof.
  intros Hgrid Hfree Hfood Hgen. apply wall_check_false in Hgrid.
  apply off_snake_not_In in Hfree. apply food_check_true in Hfood.
  open_world w. subst. unfold_ops. unfold advance, fed in *. simpl in *.
  rewrite Hgrid. simpl in Hfree. rewrite Hfree. rewrite Hfood.
  destruct hs as [h|]; simpl; [destruct (h <? sc + 10)|]; simpl;
    rewrite Hgen; simpl; rewrite <- ?app_assoc; reflexivity.
Qed.

Lemma moveSnake_eat_stuck :
  in_grid head -> ~ In head (first :: others) -> head = food (game w) ->
  generateFood_loop (first :: others) (random w) = None ->
  moveSnake w = None.
Proof.
  intros Hgrid Hfree Hfood Hgen. apply wall_check_false in Hgrid.
  apply off_snake_not_In in Hfree. apply food_check_true in Hfood.
  open_world w. subst. unfold_ops. unfold advance in *. simpl in *.
  rewrite Hgrid. simpl in Hfree. rewrite Hfree. rewrite Hfood.
  destruct hs as [h|]; simpl; [destruct (h <? sc + 10)|]; simpl;
    rewrite Hgen; reflexivity.
Qed.

End Tick.

Lemma Position_eq_dec (p q : Position) : {p = q} + {p <> q}.
Proof. decide equality; apply Z.eq_dec. Defined.

Lemma in_grid_dec (p : Position) : {in_grid p} + {~ in_grid p}.
Proof.
  unfold in_grid, GRID_SIZE.
  destruct (Z_le_dec 0 (x p)), (Z_lt_dec (x p) 20), (Z_le_dec 0 (y p)), (Z_lt_dec (y p) 20);
    (left; lia) || (right; lia).
Defined.

(** Every tick that returns is one of the five. *)
Lemma moveSnake_Ticked (w w' : World) (u : unit) :
  moveSnake w = Some (u, w') -> Ticked w w'.
Proof.
  intros Hstep.
  destruct (gameRunning (game w)) eqn:Hrun; cycle 1.
  { rewrite moveSnake_idle in Hstep by auto. injection Hstep as _ <-.
    apply TickIdle; auto. }
  destruct (gameOver (game w)) eqn:Hov.
  { rewrite moveSnake_idle in Hstep by auto. injection Hstep as _ <-.
    apply TickIdle; auto. }
  destruct (snake (game w)) as [|first others] eqn:Hsn.
  { rewrite moveSnake_empty in Hstep by auto. injection Hstep as _ <-.
    apply TickIdle; auto. }
  destruct (in_grid_dec (advance first (direction (game w)))) as [Hgrid | Hwall]; cycle 1.
  { rewrite (moveSnake_wall w first others) in Hstep by assumption.
    injection Hstep as _ <-. eapply TickWall; eassumption. }
  destruct (in_dec Position_eq_dec (advance first (direction (game w))) (first :: others))
    as [Hself | Hfree].
  { rewrite (moveSnake_self w first others) in Hstep by assumption.
    injection Hstep as _ <-. eapply TickSelf; eassumption. }
  destruct (Position_eq_dec (advance first (direction (game w))) (food (game w)))
    as [Hfood | Hfood]; cycle 1.
  { rewrite (moveSnake_move w first others) in Hstep by assumption.
    injection Hstep as _ <-. eapply TickMove; eassumption. }
  destruct (generateFood_loop (first :: others) (random w)) as [[newFood rest]|] eqn:Hgen.
  - rewrite (moveSnake_eat w first others Hrun Hov Hsn newFood rest) in Hstep by assumption.
    injection Hstep as _ <-. eapply TickEat; eassumption.
  - rewrite (moveSnake_eat_stuck w first others) in Hstep by assumption. discriminate.
Qed.

Lemma exec_Some {A : Type} (m : M A) (w w' : World) :
  exec m w = Some w' <-> exists a, m w = Some (a, w').
Proof.
  unfold exec. destruct (m w) as [[a w1]|]; simpl; split.
  - intros [= <-]. now exists a.
  - intros [a' [= _ <-]]. reflexivity.
  - discriminate.
  - intros [a' [=]].
Qed.

Lemma step_Tick_Ticked (w w' : World) : step Tick w = Some w' -> Ticked w w'.
Proof.
  simpl. intros H. apply exec_Some in H as [u Hu]. eapply moveSnake_Ticked, Hu.
Qed.

Lemma resetGame_eq (w : World) : resetGame w = Some (tt, after_reset w).
Proof. open_world w. reflexivity. Qed.

Lemma pauseGame_eq (w : World) : pauseGame w = Some (tt, with_running false w).
Proof. open_world w. reflexivity. Qed.

Lemma startGame_eq (w : World) :
  startGame w
  = Some (tt, with_running true (if gameOver (game w) then after_reset w else w)).
Proof. open_world w. destruct over; reflexivity. Qed.

Lemma handleKeyPress_idle (w : World) (key : string) :
  gameRunning (game w) = false -> handleKeyPress key w = Some (tt, w).
Proof. intros H. open_world w. subst. reflexivity. Qed.

Lemma handleKeyPress_ArrowUp (w : World) :
  gameRunning (game w) = true ->
  handleKeyPress "ArrowUp" w
  = Some (tt, if y (direction (game w)) =? 0
              then with_direction (mkPosition 0 (-1)) w else w).
Proof. intros H. open_world w. subst. unfold_ops. destruct (y dir =? 0); reflexivity. Qed.

Lemma handleKeyPress_ArrowDown (w : World) :
  gameRunning (game w) = true ->
  handleKeyPress "ArrowDown" w
  = Some (tt, if y (direction (game w)) =? 0
              then with_direction (mkPosition 0 1) w else w).
Proof. intros H. open_world w. subst. unfold_ops. destruct (y dir =? 0); reflexivity. Qed.

Lemma handleKeyPress_ArrowLeft (w : World) :
  gameRunning (game w) = true ->
  handleKeyPress "ArrowLeft" w
  = Some (tt, if x (direction (game w)) =? 0
              then with_direction (mkPosition (-1) 0) w else w).
Proof. intros H. open_world w. subst. unfold_ops. destruct (x dir =? 0); reflexivity. Qed.

Lemma handleKeyPress_ArrowRight (w : World) :
  gameRunning (game w) = true ->
  handleKeyPress "ArrowRight" w
  = Some (tt, if x (direction (game w)) =? 0
              then with_direction (mkPosition 1 0) w else w).
Proof. intros H. open_world w. subst. unfold_ops. destruct (x dir =? 0); reflexivity. Qed.

Lemma handleKeyPress_space (w : World) :
  gameRunning (game w) = true ->
  handleKeyPress " " w = Some (tt, with_running false w).
Proof. intros H. open_world w. subst. reflexivity. Qed.

(** A key never touches anything but [direction] and [gameRunning], and it
    can only clear [gameRunning]. *)
Lemma handleKeyPress_frame (w : World) (key : string) :
  exists w',
    handleKeyPress key w = Some (tt, w')
    /\ snake (game w') = snake (game w) /\ food (game w') = food (game w)
    /\ score (game w') = score (game w) /\ gameOver (game w') = gameOver (game w)
    /\ highScore (game w') = highScore (game w)
    /\ (gameRunning (game w') = gameRunning (game w) \/ gameRunning (game w') = false)
    /\ localStorage w' = localStorage w /\ trace w' = trace w /\ random w' = random w.
Proof.
  open_world w. unfold_ops.
  repeat match goal with
         | |- context [if ?b then _ else _] => destruct b; simpl
         end;
    eexists; (split; [reflexivity | simpl; tauto]).
Qed.

(** A key that is no arrow leaves [direction] alone. *)
Lemma handleKeyPress_not_arrow (w : World) (key : string) :
  arrow_vector key = None ->
  exists w', handleKeyPress key w = Some (tt, w')
             /\ direction (game w') = direction (game w).
Proof.
  unfold arrow_vector. intros Hkey. open_world w. unfold_ops.
  destruct (negb running); simpl; [eexists; split; reflexivity|].
  destruct (String.eqb key "ArrowUp"); [discriminate|].
  destruct (String.eqb key "ArrowDown"); [discriminate|].
  destruct (String.eqb key "ArrowLeft"); [discriminate|].
  destruct (String.eqb key "ArrowRight"); [discriminate|].
  destruct (String.eqb key " "); eexists; split; reflexivity.
Qed.

Lemma arrow_vector_cases (key : string) (v : Position) :
  arrow_vector key = Some v ->
  (key = "ArrowUp" /\ v = mkPosition 0 (-1))
  \/ (key = "ArrowDown" /\ v = mkPosition 0 1)
  \/ (key = "ArrowLeft" /\ v = mkPosition (-1) 0)
  \/ (key = "ArrowRight" /\ v = mkPosition 1 0).
Proof.
  unfold arrow_vector.
  destruct (String.eqb key "ArrowUp") eqn:E1;
    [apply String.eqb_eq in E1; intros [= <-]; auto|].
  destruct (String.eqb key "ArrowDown") eqn:E2;
    [apply String.eqb_eq in E2; intros [= <-]; auto|].
  destruct (String.eqb key "ArrowLeft") eqn:E3;
    [apply String.eqb_eq in E3; intros [= <-]; auto|].
  destruct (String.eqb key "ArrowRight") eqn:E4;
    [apply String.eqb_eq in E4; intros [= <-]; auto 6|].
  discriminate.
Qed.

(** The rule all four arrows follow: the vector is taken exactly when the
    current direction has no component on the axis the vector moves along. *)
Lemma handleKeyPress_arrow (w : World) (key : string) (v : Position) :
  gameRunning (game w) = true ->
  arrow_vector key = Some v ->
  handleKeyPress key w
  = Some (tt, if (if y v =? 0 then x (direction (game w)) else y (direction (game w))) =? 0
              then with_direction v w else w).
Proof.
  intros Hrun Hkey.
  destruct (arrow_vector_cases key v Hkey) as [[-> ->] | [[-> ->] | [[-> ->] | [-> ->]]]];
    simpl.
  - now apply handleKeyPress_ArrowUp.
  - now apply handleKeyPress_ArrowDown.
  - now apply handleKeyPress_ArrowLeft.
  - now apply handleKeyPress_ArrowRight.
Qed.


(** ** Reading back what [toString] wrote *)

Section ParseInt.

Import DecimalPos.Unsigned.

(** Digits printed by [toString] are read back one by one; [seen] holds the
    digits already read, least significant first. *)
Lemma parse_digits_string_of_uint (u seen : Decimal.uint) :
  JS.parse_digits 10 (NilEmpty.string_of_uint u) (Some (Z.of_N (of_lu seen)))
  = Some (Z.of_N (of_lu (Decimal.revapp u seen))).
Proof.
  revert seen. induction u; intros seen; simpl; try reflexivity;
    rewrite <- IHu; do 2 f_equal;
    match goal with
    | |- context [Z.of_nat (nat_of_ascii ?c)] =>
        let k := eval vm_compute in (Z.of_nat (nat_of_ascii c)) in
        change (Z.of_nat (nat_of_ascii c)) with k
    end;
    rewrite (of_lu_eqn (_ seen)); simpl hd; simpl tl; lia.
Qed.

Ltac read_back :=
  unfold JS.parseInt; simpl;
  match goal with
  | |- context [JS.parse_digits 10 (NilEmpty.string_of_uint ?u) (Some ?a)] =>
      match goal with
      | |- context [of_lu (Decimal.revapp u ?s)] =>
          replace a with (Z.of_N (of_lu s)) by reflexivity
      end
  end;
  rewrite parse_digits_string_of_uint; split; f_equal; lia.

(** A printed numeral, with or without a minus sign, parses to its value. *)
Lemma parseInt_string_of_uint (u : Decimal.uint) :
  u <> Decimal.Nil ->
  JS.parseInt (NilEmpty.string_of_uint u) = JS.Num (Z.of_N (Pos.of_uint u))
  /\ JS.parseInt (String "-" (NilEmpty.string_of_uint u))
     = JS.Num (- Z.of_N (Pos.of_uint u)).
Proof.
  intros Hnil. rewrite of_uint_alt. unfold Decimal.rev.
  destruct u as [|u|u|u|u|u|u|u|u|u|u]; [congruence | | read_back ..].
  destruct u; [split; reflexivity | read_back ..].
Qed.

(** [parseInt] undoes [toString] on every integer. *)
Lemma parseInt_toString (z : Z) : JS.parseInt (JS.toString z) = JS.Num z.
Proof.
  unfold JS.toString. destruct z as [|p|p]; [reflexivity | |];
    unfold Z.to_int, NilZero.string_of_int, NilZero.string_of_uint;
    pose proof (to_uint_nonnil p) as Hnil;
    destruct (parseInt_string_of_uint (Pos.to_uint p) Hnil) as [Hpos Hneg];
    rewrite of_to in Hpos, Hneg;
    destruct (Pos.to_uint p); try congruence; assumption.
Qed.

(** What [toString] writes is never the empty string. *)
Lemma toString_truthy (z : Z) : JS.truthy (JS.toString z) = true.
Proof.
  unfold JS.toString. destruct z as [|p|p]; [reflexivity | | reflexivity].
  unfold Z.to_int, NilZero.string_of_int, NilZero.string_of_uint.
  pose proof (to_uint_nonnil p) as Hnil.
  destruct (Pos.to_uint p); try congruence; reflexivity.
Qed.

End ParseInt.

(** The stored high score, when [toString] wrote it, is what the component
    starts with. *)
Lemma initialHighScore_stored (ls : gmap string string) (n : Z) :
  ls !! "snakeHighScore" = Some (JS.toString n) ->
  initialHighScore ls = JS.Num n.
Proof.
  intros Hls. unfold initialHighScore, localStorage_getItem. rewrite Hls.
  now rewrite toString_truthy, parseInt_toString.
Qed.

Lemma initialHighScore_absent (ls : gmap string string) :
  ls !! "snakeHighScore" = None -> initialHighScore ls = JS.Num 0.
Proof.
  intros Hls. unfold initialHighScore, localStorage_getItem. now rewrite Hls.
Qed.

(** ** Lists *)

Lemma removelast_NoDup {A : Type} (l : list A) :
  List.NoDup l -> List.NoDup (removelast l).
Proof.
  intros Hnd. destruct l as [|a l]; [exact Hnd|].
  rewrite (app_removelast_last a (l := a :: l)) in Hnd by discriminate.
  eapply NoDup_app_remove_r, Hnd.
Qed.

Lemma removelast_length_cons {A : Type} (a : A) (l : list A) :
  length (removelast (a :: l)) = length l.
Proof.
  rewrite removelast_firstn_len, length_firstn. simpl. lia.
Qed.

Lemma writes_app (tr tr' : list Event) :
  writes (tr ++ tr') = (writes tr ++ writes tr')%list.
Proof. unfold writes. apply omap_app. Qed.

Lemma not_decreased_refl (a : JS.number) : not_decreased a a.
Proof. now left. Qed.

Lemma not_decreased_trans (a b c : JS.number) :
  not_decreased a b -> not_decreased b c -> not_decreased a c.
Proof.
  intros [-> | (p & q & -> & -> & Hpq)] [-> | (p' & q' & Hb & -> & Hpq')].
  - now left.
  - right. eauto.
  - right. eauto.
  - injection Hb as <-. right. exists p, q'. repeat split; lia.
Qed.

(** ** Every operation, seen from outside *)

(** A tick changes [gameOver] and [highScore] in the ways [Ticked] lists. *)
Lemma Ticked_over_stops (w w' : World) :
  Ticked w w' -> over_stops (game w) -> over_stops (game w').
Proof.
  unfold over_stops. intros [] Hinv; simpl; auto.
  unfold fed. destruct (JS.gt _ _); simpl; congruence.
Qed.

Lemma Ticked_high_score (w w' : World) :
  Ticked w w' -> not_decreased (highScore (game w)) (highScore (game w')).
Proof.
  intros []; simpl; try apply not_decreased_refl.
  unfold fed. destruct (highScore (game w)) as [h|] eqn:Hhs; simpl.
  - destruct (h <? score (game w) + 10) eqn:Hlt; simpl.
    + right. exists h, (score (game w) + 10). apply Z.ltb_lt in Hlt. auto.
    + now left.
  - now left.
Qed.

(** The worlds the four always-returning operations lead to. *)
Lemma step_Start (w : World) :
  step Start w = Some (with_running true (if gameOver (game w) then after_reset w else w)).
Proof. simpl. unfold exec. now rewrite startGame_eq. Qed.

Lemma step_Pause (w : World) : step Pause w = Some (with_running false w).
Proof. simpl. unfold exec. now rewrite pauseGame_eq. Qed.

Lemma step_Reset (w : World) : step Reset w = Some (after_reset w).
Proof. simpl. unfold exec. now rewrite resetGame_eq. Qed.

Lemma step_over_stops (op : Op) (w w' : World) :
  over_stops (game w) -> step op w = Some w' -> over_stops (game w').
Proof.
  intros Hinv Hstep. destruct op.
  - eapply Ticked_over_stops; [apply step_Tick_Ticked, Hstep | exact Hinv].
  - rewrite step_Start in Hstep. injection Hstep as <-. unfold over_stops.
    destruct (gameOver (game w)) eqn:Hov; simpl; [discriminate | rewrite Hov; discriminate].
  - rewrite step_Pause in Hstep. injection Hstep as <-. intros _. reflexivity.
  - rewrite step_Reset in Hstep. injection Hstep as <-. intros _. reflexivity.
  - simpl in Hstep. apply exec_Some in Hstep as [u Hu].
    destruct (handleKeyPress_frame w key) as (w1 & Heq & _ & _ & _ & Hov & _ & Hrun & _).
    rewrite Heq in Hu. injection Hu as _ <-. unfold over_stops in *.
    rewrite Hov. intros H. destruct Hrun as [-> | ->]; auto.
Qed.

Lemma step_high_score (op : Op) (w w' : World) :
  step op w = Some w' -> not_decreased (highScore (game w)) (highScore (game w')).
Proof.
  intros Hstep. destruct op.
  - apply Ticked_high_score, step_Tick_Ticked, Hstep.
  - rewrite step_Start in Hstep. injection Hstep as <-.
    destruct (gameOver (game w)); apply not_decreased_refl.
  - rewrite step_Pause in Hstep. injection Hstep as <-. apply not_decreased_refl.
  - rewrite step_Reset in Hstep. injection Hstep as <-. apply not_decreased_refl.
  - simpl in Hstep. apply exec_Some in Hstep as [u Hu].
    destruct (handleKeyPress_frame w key) as (w1 & Heq & _ & _ & _ & _ & Hhs & _).
    rewrite Heq in Hu. injection Hu as _ <-. rewrite Hhs. apply not_decreased_refl.
Qed.

(** ** Projections of the worlds after a tick *)

Ltac project :=
  cbn [game gameOver gameRunning snake food score highScore direction
       localStorage trace random collided moved with_running with_direction
       after_reset].


Lemma fed_gameRunning (head newFood : Position) (rest : list Q) (w : World) :
  gameRunning (game (fed head newFood rest w)) = gameRunning (game w).
Proof. unfold fed. destruct (JS.gt _ _); reflexivity. Qed.

Lemma fed_snake (head newFood : Position) (rest : list Q) (w : World) :
  snake (game (fed head newFood rest w)) = head :: snake (game w).
Proof. unfold fed. destruct (JS.gt _ _); reflexivity. Qed.

Lemma fed_food (head newFood : Position) (rest : list Q) (w : World) :
  food (game (fed head newFood rest w)) = newFood.
Proof. unfold fed. destruct (JS.gt _ _); reflexivity. Qed.

Lemma fed_score (head newFood : Position) (rest : list Q) (w : World) :
  score (game (fed head newFood rest w)) = score (game w) + 10.
Proof. unfold fed. destruct (JS.gt _ _); reflexivity. Qed.

(** ** Runs *)

Lemma run_over_stops (ops : list Op) (w w' : World) :
  over_stops (game w) -> run ops w = Some w' -> over_stops (game w').
Proof.
  revert w. induction ops as [|op ops IH]; intros w Hinv; simpl.
  - intros [= <-]. exact Hinv.
  - destruct (step op w) as [w1|] eqn:Hstep; [|discriminate].
    apply IH. eapply step_over_stops; eassumption.
Qed.

Lemma run_high_score (ops : list Op) (w w' : World) :
  run ops w = Some w' -> not_decreased (highScore (game w)) (highScore (game w')).
Proof.
  revert w. induction ops as [|op ops IH]; intros w; simpl.
  - intros [= <-]. apply not_decreased_refl.
  - destruct (step op w) as [w1|] eqn:Hstep; [|discriminate].
    intros Hrun. eapply not_decreased_trans; [eapply step_high_score, Hstep | apply IH, Hrun].
Qed.

(** In JavaScript's own terms: the later value is never [<] the earlier. *)
Lemma not_decreased_lt (a b : JS.number) : not_decreased a b -> JS.lt b a = false.
Proof.
  intros [-> | (p & q & -> & -> & Hpq)]; unfold JS.lt, JS.gt.
  - destruct a; [apply Z.ltb_irrefl | reflexivity].
  - apply Z.ltb_ge. lia.
Qed.

(** ** Termination of [generateFood] *)

(** The values of [Math.random()] that a sequence of rejected cells uses up. *)
Lemma generateFood_loop_returns (sn : list Position) (rejected : list (Q * Q))
    (rx ry : Q) (rest : list Q) :
  ~ In (mkPosition (random_coordinate rx) (random_coordinate ry)) sn ->
  exists newFood rest',
    generateFood_loop sn (flat_map (fun p => [fst p; snd p]) rejected ++ rx :: ry :: rest)
    = Some (newFood, rest').
Proof.
  intros Hfree. induction rejected as [|[qx qy] rejected IH]; simpl.
  - apply off_snake_not_In in Hfree. rewrite Hfree. eauto.
  - destruct (existsb _ sn); [exact IH | eauto].
Qed.

(** A tick returns unless it eats and the random values hold no free cell. *)
Lemma step_Tick_returns (w : World) :
  generateFood_loop (snake (game w)) (random w) <> None ->
  exists w', step Tick w = Some w'.
Proof.
  intros Hgen. simpl. unfold exec.
  destruct (gameRunning (game w)) eqn:Hrun; cycle 1.
  { rewrite moveSnake_idle by auto. eauto. }
  destruct (gameOver (game w)) eqn:Hov.
  { rewrite moveSnake_idle by auto. eauto. }
  destruct (snake (game w)) as [|first others] eqn:Hsn.
  { rewrite moveSnake_empty by auto. eauto. }
  destruct (in_grid_dec (advance first (direction (game w)))) as [Hgrid | Hwall]; cycle 1.
  { rewrite (moveSnake_wall w first others) by assumption. eauto. }
  destruct (in_dec Position_eq_dec (advance first (direction (game w))) (first :: others))
    as [Hself | Hfree].
  { rewrite (moveSnake_self w first others) by assumption. eauto. }
  destruct (Position_eq_dec (advance first (direction (game w))) (food (game w)))
    as [Hfood | Hfood]; cycle 1.
  { rewrite (moveSnake_move w first others) by assumption. eauto. }
  destruct (generateFood_loop (first :: others) (random w)) as [[newFood rest]|] eqn:Hg;
    [|congruence].
  rewrite (moveSnake_eat w first others Hrun Hov Hsn newFood rest) by assumption. eauto.
Qed.

Lemma Position_eq (a b c d : Z) : mkPosition a b = mkPosition c d <-> a = c /\ b = d.
Proof. split; [intros [= -> ->]; auto | intros [-> ->]; reflexivity]. Qed.

Lemma Some_Position_eq (p q : Position) : Some p = Some q <-> p = q.
Proof. split; [intros [= ->]; reflexivity | intros ->; reflexivity]. Qed.


(** Whatever [generateFood] returns on an eating tick is off the snake of
    the render, that is the snake before the tick. *)
Lemma generateFood_avoids_closure_snake (w w' : World) (first : Position)
    (others : list Position) :
  gameRunning (game w) = true -> gameOver (game w) = false ->
  snake (game w) = first :: others ->
  in_grid (advance first (direction (game w))) ->
  ~ In (advance first (direction (game w))) (first :: others) ->
  advance first (direction (game w)) = food (game w) ->
  moveSnake w = Some (tt, w') ->
  ~ In (food (game w')) (snake (game w)).
Proof.
  intros Hrun Hov Hsn Hgrid Hfree Hfood Hstep.
  destruct (generateFood_loop (first :: others) (random w)) as [[newFood rest]|] eqn:Hgen.
  - rewrite (moveSnake_eat w first others Hrun Hov Hsn newFood rest) in Hstep by assumption.
    injection Hstep as <-. rewrite Hsn.
    apply generateFood_loop_off_snake in Hgen.
    unfold fed. destruct (JS.gt _ _); exact Hgen.
  - rewrite (moveSnake_eat_stuck w first others) in Hstep by assumption. discriminate.
Qed.


(** ** The claims *)


(** C1 (the code departs from it): in a game played from the initial state,
    the snake turns left, goes five cells, turns up and reaches the food at
    (5,5) on its fifth tick; with the random values 1/4, 1/4 [generateFood]
    returns (5,5) again, which is the head of the grown snake. *)
Theorem food_lands_on_new_head :
  exists w',
    run to_first_food (mount ∅ [1 # 4; 1 # 4]%Q) = Some w'
    /\ snake (game w') = [mkPosition 5 5; mkPosition 5 6]
    /\ food (game w') = mkPosition 5 5
    /\ In (food (game w')) (snake (game w')).
Proof.
  eexists. split; [vm_compute; reflexivity|]. simpl. auto.
Qed.

(** C2: while running and not over, a tick whose new head is off the grid or
    on a cell of the snake returns with [gameOver] set, [gameRunning]
    cleared, and [snake], [food] and [score] as they were. *)
Theorem collision_tick_is_atomic (w : World) (first : Position) (others : list Position) :
  gameRunning (game w) = true -> gameOver (game w) = false ->
  snake (game w) = first :: others ->
  ~ in_grid (advance first (direction (game w)))
  \/ In (advance first (direction (game w))) (first :: others) ->
  exists w',
    moveSnake w = Some (tt, w')
    /\ gameOver (game w') = true /\ gameRunning (game w') = false
    /\ snake (game w') = snake (game w)
    /\ food (game w') = food (game w)
    /\ score (game w') = score (game w).
Proof.
  intros Hrun Hov Hsn Hhit.
  destruct (in_grid_dec (advance first (direction (game w)))) as [Hgrid | Hwall].
  - destruct Hhit as [Hwall | Hself]; [contradiction|].
    eexists. split; [now apply (moveSnake_self w first others) | simpl; tauto].
  - eexists. split; [now apply (moveSnake_wall w first others) | simpl; tauto].
Qed.

Lemma collision_tick_is_atomic_witness :
  exists w',
    moveSnake coiled = Some (tt, w')
    /\ gameOver (game w') = true /\ gameRunning (game w') = false
    /\ snake (game w') = snake (game coiled)
    /\ food (game w') = food (game coiled)
    /\ score (game w') = score (game coiled).
Proof.
  apply (collision_tick_is_atomic coiled (mkPosition 5 5)
           [mkPosition 5 6; mkPosition 6 6; mkPosition 6 5; mkPosition 6 4]);
    [reflexivity | reflexivity | reflexivity | right; simpl; auto].
Defined.

(** C3 (the code departs from it): a stored value that does not start with
    an integer makes the initial high score [NaN], not 0. *)
Theorem malformed_high_score_loads_NaN :
  initialHighScore {[ "snakeHighScore" := "abc" ]} = JS.NaN.
Proof. vm_compute. reflexivity. Qed.

(** C4: a key changes [direction] only while the game runs; Up and Down are
    turned down exactly when [direction.y] is not 0, Left and Right exactly
    when [direction.x] is not 0, and are taken otherwise; so the arrow
    opposite to the current direction is always turned down. *)
Theorem arrow_keys_follow_axis_rule (w : World) (key : string) :
  exists w',
    handleKeyPress key w = Some (tt, w')
    /\ (gameRunning (game w) = false -> direction (game w') = direction (game w))
    /\ (gameRunning (game w) = true ->
        (key = "ArrowUp" \/ key = "ArrowDown" ->
         (y (direction (game w)) <> 0 <-> direction (game w') = direction (game w))
         /\ (y (direction (game w)) = 0 -> Some (direction (game w')) = arrow_vector key))
        /\ (key = "ArrowLeft" \/ key = "ArrowRight" ->
            (x (direction (game w)) <> 0 <-> direction (game w') = direction (game w))
            /\ (x (direction (game w)) = 0 -> Some (direction (game w')) = arrow_vector key)))
    /\ (arrow_vector key = Some (opposite (direction (game w))) ->
        direction (game w') = direction (game w)).
Proof.
  destruct (gameRunning (game w)) eqn:Hrun; cycle 1.
  { exists w. split; [now apply handleKeyPress_idle|]. repeat split; intros; congruence. }
  destruct (arrow_vector key) as [v|] eqn:Hkey; cycle 1.
  { destruct (handleKeyPress_not_arrow w key Hkey) as (w' & Heq & Hdir).
    exists w'. split; [exact Heq|]. split; [auto|]. split; [|auto].
    intros _. split; intros [-> | ->]; discriminate Hkey. }
  eexists. split; [apply (handleKeyPress_arrow w key v Hrun Hkey)|].
  split; [discriminate|].
  destruct (arrow_vector_cases key v Hkey) as [[-> ->] | [[-> ->] | [[-> ->] | [-> ->]]]];
    simpl; clear Hkey;
    destruct (direction (game w)) as [dx dy] eqn:Hd; simpl;
    match goal with
    | |- context [?c =? 0] => destruct (Z.eqb_spec c 0) as [Hz | Hz]
    end;
    simpl; rewrite ?Hd;
    unfold opposite; simpl;
    rewrite ?Some_Position_eq, ?Position_eq;
    intuition (try discriminate; try lia).
Qed.

Lemma arrow_keys_follow_axis_rule_witness :
  exists w',
    handleKeyPress "ArrowLeft" cruising = Some (tt, w')
    /\ direction (game w') = mkPosition 1 0.
Proof.
  destruct (arrow_keys_follow_axis_rule cruising "ArrowLeft") as (w' & Heq & _ & _ & Hrev).
  exists w'. split; [exact Heq | apply Hrev; reflexivity].
Defined.



(** C6: on a tick that does not end the game, a new head on the food adds
    exactly 10 to [score] and keeps the tail, so the snake is one cell
    longer; a new head elsewhere drops the last cell, so the length stays;
    from snake [(1,1)], food (2,1), direction (1,0), one tick gives score 10
    and snake [(2,1),(1,1)]. *)
Theorem eating_grows_moving_shifts (w : World) (first : Position) (others : list Position) :
  gameRunning (game w) = true -> gameOver (game w) = false ->
  snake (game w) = first :: others ->
  in_grid (advance first (direction (game w))) ->
  ~ In (advance first (direction (game w))) (first :: others) ->
  (advance first (direction (game w)) = food (game w) ->
   (forall w', step Tick w = Some w' ->
      score (game w') = score (game w) + 10
      /\ snake (game w') = advance first (direction (game w)) :: snake (game w)
      /\ length (snake (game w')) = S (length (snake (game w))))
   /\ (forall newFood rest,
         generateFood_loop (snake (game w)) (random w) = Some (newFood, rest) ->
         exists w', step Tick w = Some w'))
  /\ (advance first (direction (game w)) <> food (game w) ->
      exists w',
        step Tick w = Some w'
        /\ score (game w') = score (game w)
        /\ snake (game w') = removelast (advance first (direction (game w)) :: snake (game w))
        /\ length (snake (game w')) = length (snake (game w)))
  /\ (snake (game w) = [mkPosition 1 1] -> food (game w) = mkPosition 2 1 ->
      direction (game w) = mkPosition 1 0 -> score (game w) = 0 ->
      forall w', step Tick w = Some w' ->
        score (game w') = 10 /\ snake (game w') = [mkPosition 2 1; mkPosition 1 1]).
Proof.
  intros Hrun Hov Hsn Hgrid Hfree.
  assert (Heat : advance first (direction (game w)) = food (game w) ->
                 forall w', step Tick w = Some w' ->
                   score (game w') = score (game w) + 10
                   /\ snake (game w') = advance first (direction (game w)) :: snake (game w)).
  { intros Hfood w' Hstep. simpl in Hstep. apply exec_Some in Hstep as [[] Hstep].
    destruct (generateFood_loop (first :: others) (random w)) as [[newFood rest]|] eqn:Hgen.
    - rewrite (moveSnake_eat w first others Hrun Hov Hsn newFood rest) in Hstep by assumption.
      injection Hstep as <-. now rewrite fed_score, fed_snake.
    - rewrite (moveSnake_eat_stuck w first others) in Hstep by assumption. discriminate. }
  split; [|split].
  - intros Hfood. split.
    + intros w' Hstep. destruct (Heat Hfood w' Hstep) as [Hsc Hs].
      rewrite Hsc, Hs. auto.
    + intros newFood rest Hgen. rewrite Hsn in Hgen. simpl. unfold exec.
      rewrite (moveSnake_eat w first others Hrun Hov Hsn newFood rest) by assumption.
      eexists. reflexivity.
  - intros Hfood. exists (moved (advance first (direction (game w))) w).
    simpl. unfold exec.
    rewrite (moveSnake_move w first others) by assumption.
    split; [reflexivity|]. project. rewrite Hsn.
    split; [reflexivity|]. split; [reflexivity|].
    exact (removelast_length_cons (advance first (direction (game w))) (first :: others)).
  - intros Hs Hf Hd Hsc w' Hstep.
    assert (Hfood : advance first (direction (game w)) = food (game w)).
    { rewrite Hsn in Hs. injection Hs as -> ->. rewrite Hd, Hf. reflexivity. }
    destruct (Heat Hfood w' Hstep) as [Hscore Hsnake].
    rewrite Hscore, Hsnake, Hsc, Hs. rewrite Hsn in Hs. injection Hs as -> ->.
    rewrite Hd. split; reflexivity.
Qed.

Lemma eating_grows_moving_shifts_witness :
  exists w',
    step Tick about_to_eat = Some w'
    /\ score (game w') = 10
    /\ snake (game w') = [mkPosition 2 1; mkPosition 1 1]
    /\ length (snake (game w')) = 2%nat.
Proof.
  pose proof (eating_grows_moving_shifts about_to_eat (mkPosition 1 1) []
                eq_refl eq_refl eq_refl) as H.
  destruct H as [Heat _].
  - unfold in_grid, GRID_SIZE. simpl. lia.
  - simpl. intros [[=] | []].
  - destruct (Heat eq_refl) as [Hfacts Hreturns].
    destruct (Hreturns (mkPosition 5 5) [] eq_refl) as [w' Hstep].
    exists w'. split; [exact Hstep|]. apply (Hfacts w' Hstep).
Defined.

(** C7: on an eating tick, a new score above the high score is written to
    the store exactly once and becomes the high score; a new score that is
    not above it causes no write and leaves the high score alone.  The tick
    returns whenever [generateFood] does. *)
Theorem high_score_written_once (w : World) (first : Position) (others : list Position)
    (newFood : Position) (rest : list Q) :
  gameRunning (game w) = true -> gameOver (game w) = false ->
  snake (game w) = first :: others ->
  in_grid (advance first (direction (game w))) ->
  ~ In (advance first (direction (game w))) (first :: others) ->
  advance first (direction (game w)) = food (game w) ->
  generateFood_loop (snake (game w)) (random w) = Some (newFood, rest) ->
  exists w',
    step Tick w = Some w'
    /\ (forall h, highScore (game w) = JS.Num h -> h < score (game w) + 10 ->
          writes (trace w')
          = (writes (trace w)
             ++ [("snakeHighScore", JS.toString (score (game w) + 10))])%list
          /\ highScore (game w') = JS.Num (score (game w) + 10)
          /\ localStorage w' !! "snakeHighScore"
             = Some (JS.toString (score (game w) + 10)))
    /\ (highScore (game w) = JS.NaN
        \/ (exists h, highScore (game w) = JS.Num h /\ score (game w) + 10 <= h) ->
        writes (trace w') = writes (trace w)
        /\ highScore (game w') = highScore (game w)
        /\ localStorage w' = localStorage w).
Proof.
  intros Hrun Hov Hsn Hgrid Hfree Hfood Hgen. rewrite Hsn in Hgen.
  exists (fed (advance first (direction (game w))) newFood rest w). split.
  { simpl. unfold exec.
    rewrite (moveSnake_eat w first others Hrun Hov Hsn newFood rest) by assumption.
    reflexivity. }
  unfold fed. split.
  - intros h Hh Hlt. rewrite Hh. simpl.
    apply Z.ltb_lt in Hlt. rewrite Hlt. project.
    rewrite writes_app, lookup_insert_eq. auto.
  - intros [Hnan | (h & Hh & Hle)].
    + rewrite Hnan. simpl. project. rewrite writes_app. simpl.
      rewrite app_nil_r. auto.
    + rewrite Hh. simpl. apply Z.ltb_ge in Hle. rewrite Hle. project.
      rewrite writes_app. simpl. rewrite app_nil_r. auto.
Qed.

Lemma high_score_written_once_witness :
  (exists w',
     step Tick about_to_eat = Some w'
     /\ writes (trace w') = [("snakeHighScore", "10")]
     /\ highScore (game w') = JS.Num 10)
  /\ (exists w',
        step Tick about_to_eat_below_record = Some w'
        /\ writes (trace w') = []
        /\ highScore (game w') = JS.Num 50).
Proof.
  assert (Hgrid : in_grid (mkPosition 2 1)) by (unfold in_grid, GRID_SIZE; simpl; lia).
  assert (Hfree : ~ In (mkPosition 2 1) [mkPosition 1 1]) by (simpl; intros [[=] | []]).
  split.
  - destruct (high_score_written_once about_to_eat (mkPosition 1 1) []
                (mkPosition 5 5) [] eq_refl eq_refl eq_refl Hgrid Hfree eq_refl eq_refl)
      as (w' & Hstep & Hwrite & _).
    exists w'. split; [exact Hstep|].
    destruct (Hwrite 0 eq_refl) as (Hw & Hh & _); [simpl; lia|].
    split; [exact Hw | exact Hh].
  - destruct (high_score_written_once about_to_eat_below_record (mkPosition 1 1) []
                (mkPosition 5 5) [] eq_refl eq_refl eq_refl Hgrid Hfree eq_refl eq_refl)
      as (w' & Hstep & _ & Hquiet).
    exists w'. split; [exact Hstep|].
    destruct Hquiet as (Hw & Hh & _).
    + right. exists 50. split; [reflexivity | simpl; lia].
    + split; [exact Hw | exact Hh].
Defined.

(** C8: a snake without repeated cells still has none after a tick that does
    not end the game. *)
Theorem tick_keeps_cells_distinct (w w' : World) :
  List.NoDup (snake (game w)) ->
  step Tick w = Some w' ->
  gameOver (game w') = false ->
  List.NoDup (snake (game w')).
Proof.
  intros Hnd Hstep Hgo. apply step_Tick_Ticked in Hstep.
  destruct Hstep as [Hidle | f o ? ? Hs Hwall | f o ? ? Hs Hgrid Hself
                     | f o ? ? Hs Hgrid Hfree Hfood
                     | f o newFood rest ? ? Hs Hgrid Hfree Hfood Hgen].
  - exact Hnd.
  - discriminate Hgo.
  - discriminate Hgo.
  - project. apply removelast_NoDup. constructor; [|exact Hnd].
    rewrite Hs. exact Hfree.
  - rewrite fed_snake. constructor; [|exact Hnd]. rewrite Hs. exact Hfree.
Qed.

Lemma tick_keeps_cells_distinct_witness :
  List.NoDup [mkPosition 4 3; mkPosition 3 3; mkPosition 2 3].
Proof.
  apply (tick_keeps_cells_distinct cruising (moved (mkPosition 4 3) cruising)).
  - repeat constructor; simpl; intuition discriminate.
  - reflexivity.
  - reflexivity.
Defined.

(** C9: [gameOver] implies not [gameRunning] in the initial state, and every
    operation (tick, start, pause, reset, key) keeps it so; an operation that
    sets [gameOver] leaves [gameRunning] cleared, and start leaves
    [gameRunning] set with [gameOver] cleared. *)
Theorem over_implies_not_running :
  (forall ls : gmap string string, over_stops (initialState ls))
  /\ (forall (op : Op) (w w' : World),
        over_stops (game w) -> step op w = Some w' -> over_stops (game w'))
  /\ (forall (op : Op) (w w' : World),
        step op w = Some w' ->
        gameOver (game w) = false -> gameOver (game w') = true ->
        gameRunning (game w') = false)
  /\ (forall w : World,
        exists w', step Start w = Some w'
                   /\ gameOver (game w') = false /\ gameRunning (game w') = true)
  /\ (forall (ops : list Op) (ls : gmap string string) (rs : list Q) (w : World),
        run ops (mount ls rs) = Some w -> over_stops (game w)).
Proof.
  split; [|split; [|split; [|split]]].
  - intros ls. unfold over_stops. simpl. discriminate.
  - intros op w w'. apply step_over_stops.
  - intros op w w' Hstep Hbefore Hafter.
    assert (Hinv : over_stops (game w)) by (unfold over_stops; congruence).
    exact (step_over_stops op w w' Hinv Hstep Hafter).
  - intros w. eexists. split; [apply step_Start|].
    destruct (gameOver (game w)) eqn:Hov; project; auto.
  - intros ops ls rs w Hrun. apply (run_over_stops ops (mount ls rs) w); [|exact Hrun].
    unfold over_stops. simpl. discriminate.
Qed.

Lemma over_implies_not_running_witness :
  over_stops (game (collided "You hit yourself! Final score: " coiled)).
Proof.
  apply (proj1 (proj2 over_implies_not_running) Tick coiled).
  - unfold over_stops. simpl. discriminate.
  - reflexivity.
Defined.

(** C10: [resetGame] puts [snake], [food], [direction], [score], [gameOver]
    and [gameRunning] back to their initial values and keeps [highScore];
    [startGame] keeps [highScore] too, also when it resets; no operation,
    and so no sequence of operations, decreases [highScore]. *)
Theorem high_score_survives_reset :
  (forall w : World,
     exists w',
       resetGame w = Some (tt, w')
       /\ snake (game w') = INITIAL_SNAKE /\ food (game w') = INITIAL_FOOD
       /\ direction (game w') = INITIAL_DIRECTION /\ score (game w') = 0
       /\ gameOver (game w') = false /\ gameRunning (game w') = false
       /\ highScore (game w') = highScore (game w))
  /\ (forall w : World,
        exists w', startGame w = Some (tt, w')
                   /\ highScore (game w') = highScore (game w))
  /\ (forall (op : Op) (w w' : World),
        step op w = Some w' ->
        not_decreased (highScore (game w)) (highScore (game w')))
  /\ (forall (ops : list Op) (w w' : World),
        run ops w = Some w' ->
        not_decreased (highScore (game w)) (highScore (game w'))
        /\ JS.lt (highScore (game w')) (highScore (game w)) = false).
Proof.
  split; [|split; [|split]].
  - intros w. exists (after_reset w). split; [apply resetGame_eq|]. project. tauto.
  - intros w. eexists. split; [apply startGame_eq|].
    destruct (gameOver (game w)); reflexivity.
  - apply step_high_score.
  - intros ops w w' Hrun. pose proof (run_high_score ops w w' Hrun) as Hnd.
    split; [exact Hnd|]. now apply not_decreased_lt.
Qed.

Lemma high_score_survives_reset_witness :
  not_decreased (JS.Num 0) (JS.Num 10)
  /\ JS.lt (JS.Num 10) (JS.Num 0) = false.
Proof.
  apply (proj2 (proj2 (proj2 high_score_survives_reset))
           [Tick; Reset] about_to_eat
           (after_reset (fed (mkPosition 2 1) (mkPosition 5 5) [] about_to_eat))).
  reflexivity.
Defined.

(** * More of the component, verified *)

(** ** The shape of the game along every run *)

Lemma Forall_removelast {A : Type} (P : A -> Prop) (l : list A) :
  Forall P l -> Forall P (removelast l).
Proof.
  induction l as [|a [|b l] IH]; intros H; simpl; auto.
  inversion H; subst. constructor; auto.
Qed.

Lemma contiguous_removelast (l : list Position) :
  contiguous l -> contiguous (removelast l).
Proof.
  induction l as [|a [|b [|c l]] IH]; simpl; auto.
  intros [Hab Hrest]. split; [exact Hab | apply IH, Hrest].
Qed.

Lemma unit_vector_adjacent (p d : Position) :
  unit_vector d -> adjacent (advance p d) p.
Proof.
  unfold adjacent, advance. intros [-> | [-> | [-> | ->]]]; simpl; lia.
Qed.

Lemma arrow_vector_unit (key : string) (v : Position) :
  arrow_vector key = Some v -> unit_vector v.
Proof.
  intros H. unfold unit_vector.
  destruct (arrow_vector_cases key v H) as [[_ ->] | [[_ ->] | [[_ ->] | [_ ->]]]]; auto.
Qed.

(** A key leaves [direction] alone or sets it to the vector of an arrow. *)
Lemma handleKeyPress_direction (w : World) (key : string) :
  exists w',
    handleKeyPress key w = Some (tt, w')
    /\ (direction (game w') = direction (game w)
        \/ arrow_vector key = Some (direction (game w'))).
Proof.
  destruct (gameRunning (game w)) eqn:Hrun; cycle 1.
  { exists w. split; [now apply handleKeyPress_idle | now left]. }
  destruct (arrow_vector key) as [v|] eqn:Hkey; cycle 1.
  { destruct (handleKeyPress_not_arrow w key Hkey) as (w' & Heq & Hdir).
    exists w'. auto. }
  eexists. split; [apply (handleKeyPress_arrow w key v Hrun Hkey)|].
  destruct (_ =? 0); [right | left]; reflexivity.
Qed.

Lemma well_formed_initial (hs : JS.number) :
  well_formed (mkGameState INITIAL_SNAKE INITIAL_FOOD INITIAL_DIRECTION false 0 false hs).
Proof.
  unfold well_formed, INITIAL_SNAKE, INITIAL_DIRECTION. simpl.
  repeat split; try discriminate; try lia.
  - repeat constructor; unfold GRID_SIZE; simpl; lia.
  - repeat constructor. intros [].
  - unfold unit_vector. auto.
Qed.

Lemma Ticked_well_formed (w w' : World) :
  Ticked w w' -> well_formed (game w) -> well_formed (game w').
Proof.
  intros Ht (Hne & Hgrid & Hnd & Hcont & Hdir & Hscore).
  destruct Ht as [Hidle | f o ? ? Hs Hwall | f o ? ? Hs Hin Hself
                  | f o ? ? Hs Hin Hfree Hfood
                  | f o newFood rest ? ? Hs Hin Hfree Hfood Hgen].
  - repeat split; assumption.
  - repeat split; assumption.
  - repeat split; assumption.
  - unfold well_formed. project. rewrite Hs in *.
    split; [simpl; destruct o; discriminate|].
    split; [apply Forall_removelast; constructor; assumption|].
    split; [apply removelast_NoDup; constructor; assumption|].
    split; [apply contiguous_removelast; split;
            [now apply unit_vector_adjacent | assumption]|].
    split; [assumption|].
    rewrite (removelast_length_cons (advance f (direction (game w))) (f :: o)).
    exact Hscore.
  - unfold well_formed.
    rewrite fed_snake, fed_score. rewrite Hs in *.
    assert (Hd : direction (game (fed (advance f (direction (game w))) newFood rest w))
                 = direction (game w)) by (unfold fed; destruct (JS.gt _ _); reflexivity).
    rewrite Hd.
    split; [discriminate|].
    split; [constructor; assumption|].
    split; [constructor; assumption|].
    split; [split; [now apply unit_vector_adjacent | assumption]|].
    split; [assumption|].
    rewrite Hscore. simpl length. lia.
Qed.

Lemma step_well_formed (op : Op) (w w' : World) :
  well_formed (game w) -> step op w = Some w' -> well_formed (game w').
Proof.
  intros Hwf Hstep. destruct op.
  - eapply Ticked_well_formed; [apply step_Tick_Ticked, Hstep | exact Hwf].
  - rewrite step_Start in Hstep. injection Hstep as <-.
    destruct (gameOver (game w)); [apply well_formed_initial | exact Hwf].
  - rewrite step_Pause in Hstep. injection Hstep as <-. exact Hwf.
  - rewrite step_Reset in Hstep. injection Hstep as <-. apply well_formed_initial.
  - simpl in Hstep. apply exec_Some in Hstep as [u Hu].
    destruct (handleKeyPress_frame w key) as (w1 & Heq & Hsn & _ & Hsc & _).
    destruct (handleKeyPress_direction w key) as (w2 & Heq2 & Hdir).
    rewrite Heq in Heq2. injection Heq2 as <-.
    rewrite Heq in Hu. injection Hu as _ <-.
    destruct Hwf as (Hne & Hgrid & Hnd & Hcont & Hd & Hscore).
    unfold well_formed. rewrite Hsn, Hsc.
    repeat split; try assumption.
    destruct Hdir as [-> | Harrow]; [assumption | eapply arrow_vector_unit, Harrow].
Qed.

Lemma run_well_formed (ops : list Op) (w w' : World) :
  well_formed (game w) -> run ops w = Some w' -> well_formed (game w').
Proof.
  revert w. induction ops as [|op ops IH]; intros w Hwf; simpl.
  - intros [= <-]. exact Hwf.
  - destruct (step op w) as [w1|] eqn:Hstep; [|discriminate].
    apply IH. eapply step_well_formed; eassumption.
Qed.

Lemma reachable_well_formed (ops : list Op) (ls : gmap string string) (rs : list Q)
    (w : World) :
  run ops (mount ls rs) = Some w -> well_formed (game w).
Proof. apply run_well_formed, well_formed_initial. Qed.

(** The run of [to_first_food] on the random values 1/4, 1/4. *)
Lemma first_food_run :
  exists w,
    run to_first_food (mount ∅ [1 # 4; 1 # 4]%Q) = Some w
    /\ snake (game w) = [mkPosition 5 5; mkPosition 5 6]
    /\ food (game w) = mkPosition 5 5
    /\ score (game w) = 10
    /\ highScore (game w) = JS.Num 10
    /\ localStorage w !! "snakeHighScore" = Some "10".
Proof. eexists. split; [vm_compute; reflexivity|]. repeat split. Qed.

(** X1: in every world a run of operations reaches from the mounted
    component, the snake has at least one cell and all its cells are on the
    board. *)
Theorem reachable_snake_on_board (ops : list Op) (ls : gmap string string)
    (rs : list Q) (w : World) :
  run ops (mount ls rs) = Some w ->
  snake (game w) <> [] /\ Forall in_grid (snake (game w)).
Proof.
  intros Hrun. destruct (reachable_well_formed ops ls rs w Hrun) as (H1 & H2 & _).
  split; assumption.
Qed.

Lemma reachable_snake_on_board_witness :
  [mkPosition 10 9] <> [] /\ Forall in_grid [mkPosition 10 9].
Proof.
  apply (reachable_snake_on_board [Start; Tick] ∅ []
           (moved (mkPosition 10 9) (with_running true (mount ∅ [])))).
  reflexivity.
Defined.

(** X2: in every reachable world the cells of the snake are pairwise
    distinct, also after the game has ended or was reset. *)
Theorem reachable_snake_distinct (ops : list Op) (ls : gmap string string)
    (rs : list Q) (w : World) :
  run ops (mount ls rs) = Some w -> List.NoDup (snake (game w)).
Proof.
  intros Hrun. apply (reachable_well_formed ops ls rs w Hrun).
Qed.

Lemma reachable_snake_distinct_witness :
  List.NoDup [mkPosition 5 5; mkPosition 5 6].
Proof.
  destruct first_food_run as (w & Hrun & Hs & _). rewrite <- Hs.
  apply (reachable_snake_distinct to_first_food ∅ [1 # 4; 1 # 4]%Q w Hrun).
Defined.

(** X3: in every reachable world each cell of the snake is one orthogonal
    step from the next. *)
Theorem reachable_snake_contiguous (ops : list Op) (ls : gmap string string)
    (rs : list Q) (w : World) :
  run ops (mount ls rs) = Some w -> contiguous (snake (game w)).
Proof.
  intros Hrun. apply (reachable_well_formed ops ls rs w Hrun).
Qed.

(** X4: in every reachable world [direction] is one of the four unit
    vectors. *)
Theorem reachable_direction_unit (ops : list Op) (ls : gmap string string)
    (rs : list Q) (w : World) :
  run ops (mount ls rs) = Some w -> unit_vector (direction (game w)).
Proof.
  intros Hrun. apply (reachable_well_formed ops ls rs w Hrun).
Qed.

Lemma reachable_direction_unit_witness : unit_vector (mkPosition (-1) 0).
Proof.
  apply (reachable_direction_unit [Start; Key "ArrowLeft"] ∅ []
           (with_direction (mkPosition (-1) 0) (with_running true (mount ∅ [])))).
  reflexivity.
Defined.

(** X5: in every reachable world the score is ten times the number of cells
    the snake has grown by: [score = 10 * (length snake - 1)]. *)
Theorem reachable_score_counts_growth (ops : list Op) (ls : gmap string string)
    (rs : list Q) (w : World) :
  run ops (mount ls rs) = Some w ->
  score (game w) = 10 * (Z.of_nat (length (snake (game w))) - 1).
Proof.
  intros Hrun. apply (reachable_well_formed ops ls rs w Hrun).
Qed.

Lemma reachable_snake_contiguous_witness :
  contiguous [mkPosition 5 5; mkPosition 5 6].
Proof.
  destruct first_food_run as (w & Hrun & Hs & _). rewrite <- Hs.
  apply (reachable_snake_contiguous to_first_food ∅ [1 # 4; 1 # 4]%Q w Hrun).
Defined.

Lemma reachable_score_counts_growth_witness :
  exists w,
    run to_first_food (mount ∅ [1 # 4; 1 # 4]%Q) = Some w
    /\ score (game w) = 10 * (Z.of_nat (length (snake (game w))) - 1).
Proof.
  destruct first_food_run as (w & Hrun & _). exists w. split; [exact Hrun|].
  apply (reachable_score_counts_growth to_first_food ∅ [1 # 4; 1 # 4]%Q w Hrun).
Defined.

(** ** Runs and what the operations other than the tick leave alone *)

Lemma run_invariant (I : World -> Prop) :
  (forall op w w', I w -> step op w = Some w' -> I w') ->
  forall ops w w', I w -> run ops w = Some w' -> I w'.
Proof.
  intros Hstep ops. induction ops as [|op ops IH]; intros w w' Hw; simpl.
  - intros [= <-]. exact Hw.
  - destruct (step op w) as [w1|] eqn:H1; [|discriminate].
    apply IH. eapply Hstep; eassumption.
Qed.

Lemma Tick_or_not (op : Op) : op = Tick \/ op <> Tick.
Proof. destruct op; [now left | right; discriminate ..]. Qed.

(** Start, pause, reset and keys touch neither the store nor the trace nor
    the random values nor [highScore]; food and score stay or go back to
    their initial values. *)
Lemma step_other_frame (op : Op) (w w' : World) :
  op <> Tick -> step op w = Some w' ->
  localStorage w' = localStorage w /\ trace w' = trace w /\ random w' = random w
  /\ highScore (game w') = highScore (game w)
  /\ (food (game w') = food (game w) \/ food (game w') = INITIAL_FOOD)
  /\ (score (game w') = score (game w) \/ score (game w') = 0).
Proof.
  intros Hop Hstep. destruct op; [congruence | | | |].
  - rewrite step_Start in Hstep. injection Hstep as <-.
    destruct (gameOver (game w)); project; tauto.
  - rewrite step_Pause in Hstep. injection Hstep as <-. project. tauto.
  - rewrite step_Reset in Hstep. injection Hstep as <-. project. tauto.
  - simpl in Hstep. apply exec_Some in Hstep as [u Hu].
    destruct (handleKeyPress_frame w key)
      as (w1 & Heq & _ & Hfd & Hsc & _ & Hhs & _ & Hls & Htr & Hrs).
    rewrite Heq in Hu. injection Hu as _ <-. tauto.
Qed.

(** What a tick does to the store, the high score and the score: nothing to
    the first two, or one write of the new score that is the new record. *)
Lemma Ticked_storage (w w' : World) :
  Ticked w w' ->
  (localStorage w' = localStorage w
   /\ highScore (game w') = highScore (game w)
   /\ writes (trace w') = writes (trace w)
   /\ (score (game w') = score (game w)
       \/ (score (game w') = score (game w) + 10
           /\ JS.gt (JS.Num (score (game w) + 10)) (highScore (game w)) = false)))
  \/ (localStorage w'
      = <["snakeHighScore" := JS.toString (score (game w) + 10)]> (localStorage w)
      /\ highScore (game w') = JS.Num (score (game w) + 10)
      /\ writes (trace w')
         = (writes (trace w) ++ [("snakeHighScore", JS.toString (score (game w) + 10))])%list
      /\ score (game w') = score (game w) + 10
      /\ JS.gt (JS.Num (score (game w) + 10)) (highScore (game w)) = true).
Proof.
  intros [Hidle | f o ? ? Hs Hwall | f o ? ? Hs Hin Hself
          | f o ? ? Hs Hin Hfree Hfood
          | f o newFood rest ? ? Hs Hin Hfree Hfood Hgen].
  - left. tauto.
  - left. project. rewrite writes_app. simpl. rewrite app_nil_r. tauto.
  - left. project. rewrite writes_app. simpl. rewrite app_nil_r. tauto.
  - left. project. tauto.
  - unfold fed. destruct (JS.gt _ _) eqn:Hgt; [right | left]; project;
      rewrite writes_app; simpl; rewrite ?app_nil_r; tauto.
Qed.

(** ** The high score and the store *)

Lemma step_persisted (op : Op) (w w' : World) :
  initialHighScore (localStorage w) = highScore (game w) ->
  step op w = Some w' ->
  initialHighScore (localStorage w') = highScore (game w').
Proof.
  intros Hinv Hstep. destruct (Tick_or_not op) as [-> | Hop].
  - apply step_Tick_Ticked, Ticked_storage in Hstep.
    destruct Hstep as [(-> & -> & _) | (-> & -> & _)]; [exact Hinv|].
    apply initialHighScore_stored, lookup_insert_eq.
  - destruct (step_other_frame op w w' Hop Hstep) as (-> & _ & _ & -> & _).
    exact Hinv.
Qed.

(** X6: at every point of every run the store holds the high score on show:
    mounting the component again on the current [localStorage] starts from
    the current [highScore]. *)
Theorem reachable_high_score_persisted (ops : list Op) (ls : gmap string string)
    (rs : list Q) (w : World) :
  run ops (mount ls rs) = Some w ->
  forall rs', highScore (game (mount (localStorage w) rs')) = highScore (game w).
Proof.
  intros Hrun rs'. simpl.
  apply (run_invariant
           (fun w => initialHighScore (localStorage w) = highScore (game w))
           step_persisted ops (mount ls rs) w); [reflexivity | exact Hrun].
Qed.

Lemma reachable_high_score_persisted_witness :
  exists w,
    run to_first_food (mount ∅ [1 # 4; 1 # 4]%Q) = Some w
    /\ highScore (game w) = JS.Num 10
    /\ highScore (game (mount (localStorage w) [])) = highScore (game w).
Proof.
  destruct first_food_run as (w & Hrun & _ & _ & _ & Hhs & _).
  exists w. split; [exact Hrun|]. split; [exact Hhs|].
  apply (reachable_high_score_persisted to_first_food ∅ [1 # 4; 1 # 4]%Q w Hrun).
Defined.

(** X7: a run writes to [localStorage] under the key [snakeHighScore] only:
    every other key keeps the value it had, and every [setItem] call of the
    trace names that key. *)
Theorem run_writes_one_key (ops : list Op) (w w' : World) :
  run ops w = Some w' ->
  (forall key, key <> "snakeHighScore" -> localStorage w' !! key = localStorage w !! key)
  /\ (Forall (fun kv => fst kv = "snakeHighScore") (writes (trace w)) ->
      Forall (fun kv => fst kv = "snakeHighScore") (writes (trace w'))).
Proof.
  intros Hrun.
  apply (run_invariant
           (fun v => (forall key, key <> "snakeHighScore" ->
                                  localStorage v !! key = localStorage w !! key)
                     /\ (Forall (fun kv => fst kv = "snakeHighScore") (writes (trace w)) ->
                         Forall (fun kv => fst kv = "snakeHighScore") (writes (trace v))))
           ) with (ops := ops) (w := w); [| split; auto | exact Hrun].
  clear. intros op v v' [Hls Htr] Hstep.
  destruct (Tick_or_not op) as [-> | Hop].
  - apply step_Tick_Ticked, Ticked_storage in Hstep.
    destruct Hstep as [(-> & _ & -> & _) | (-> & _ & -> & _)]; [split; assumption|].
    split.
    + intros key Hkey. rewrite lookup_insert_ne by congruence. now apply Hls.
    + intros H. apply Forall_app. split; [now apply Htr | repeat constructor].
  - destruct (step_other_frame op v v' Hop Hstep) as (-> & -> & _).
    split; assumption.
Qed.

Lemma run_writes_one_key_witness :
  exists w,
    run to_first_food (mount {[ "theme" := "dark" ]} [1 # 4; 1 # 4]%Q) = Some w
    /\ localStorage w !! "theme" = Some "dark".
Proof.
  assert (H : exists w, run to_first_food (mount {[ "theme" := "dark" ]} [1 # 4; 1 # 4]%Q)
                        = Some w)
    by (eexists; vm_compute; reflexivity).
  destruct H as [w Hrun]. exists w. split; [exact Hrun|].
  destruct (run_writes_one_key to_first_food _ w Hrun) as [Hkeep _].
  rewrite Hkeep by discriminate. reflexivity.
Defined.

(** X8: in every reachable world a numeric high score is at least the
    score, or the score is still 0 (a stored negative number can be below
    it): [score <= max 0 highScore]. *)
Theorem reachable_score_below_high_score (ops : list Op) (ls : gmap string string)
    (rs : list Q) (w : World) (h : Z) :
  run ops (mount ls rs) = Some w ->
  highScore (game w) = JS.Num h ->
  score (game w) <= Z.max 0 h.
Proof.
  intros Hrun. revert h.
  apply (run_invariant
           (fun w => forall h, highScore (game w) = JS.Num h -> score (game w) <= Z.max 0 h))
    with (ops := ops) (w := mount ls rs); [| simpl; intros; lia | exact Hrun].
  clear. intros op v v' Hinv Hstep h Hh.
  destruct (Tick_or_not op) as [-> | Hop].
  - apply step_Tick_Ticked, Ticked_storage in Hstep.
    destruct Hstep as [(_ & Hhs & _ & [Hsc | [Hsc Hgt]]) | (_ & Hhs & _ & Hsc & _)].
    + rewrite Hsc. apply Hinv. congruence.
    + rewrite Hsc. rewrite Hhs in Hh. rewrite Hh in Hgt. simpl in Hgt.
      apply Z.ltb_ge in Hgt. lia.
    + rewrite Hhs in Hh. injection Hh as <-. lia.
  - destruct (step_other_frame op v v' Hop Hstep) as (_ & _ & _ & Hhs & _ & [Hsc | Hsc]).
    + rewrite Hsc. apply Hinv. congruence.
    + rewrite Hsc. lia.
Qed.

Lemma reachable_score_below_high_score_witness :
  exists w,
    run to_first_food (mount ∅ [1 # 4; 1 # 4]%Q) = Some w
    /\ score (game w) <= Z.max 0 10.
Proof.
  destruct first_food_run as (w & Hrun & _ & _ & _ & Hhs & _).
  exists w. split; [exact Hrun|].
  apply (reachable_score_below_high_score to_first_food ∅ [1 # 4; 1 # 4]%Q w 10 Hrun Hhs).
Defined.

(** ** [generateFood] *)

(** Lists taken two elements at a time, the way the loop draws. *)
Lemma list_pair_ind {A : Type} (P : list A -> Prop) :
  P [] -> (forall a, P [a]) -> (forall a b l, P l -> P (a :: b :: l)) ->
  forall l, P l.
Proof.
  intros Hnil Hone Hstep.
  assert (H : forall l, P l /\ forall a, P (a :: l)).
  { induction l as [|b l [IH1 IH2]]; split; auto. }
  intros l. apply H.
Qed.

(** ** The double product [Math.random() * GRID_SIZE] *)

(** [to_double] gives what the Standard Library's IEEE-754 multiplication
    gives: at 0.95 and 0.7, where rounding moves the product up to an
    integer, at the largest double below 1, at a tie and at subnormal
    numbers. *)
Example to_double_agrees_with_SFmul :
  forallb (fun r => Qeq_bool (Q_of_binary64 (SFmul 53 1024 (binary64_of_Q r)
                                                   (binary64_of_Q (inject_Z GRID_SIZE))))
                             (to_double (r * inject_Z GRID_SIZE)))
          [double_0_95; double_0_7; 1 # 4; 9007199254740991 # 9007199254740992;
           4503599627370497 # 9007199254740992; 1 # 2 ^ 1070; 3 # 2 ^ 1074]%Q
  = true.
Proof. vm_compute. reflexivity. Qed.

Example random_coordinate_rounded_product :
  random_coordinate double_0_95 = 19 /\ random_coordinate double_0_7 = 14
  /\ random_coordinate (9007199254740991 # 9007199254740992) = 19.
Proof. vm_compute. auto. Qed.

Lemma round_half_even_bounds (q : Q) :
  (inject_Z (round_half_even q) <= q + (1 # 2))%Q
  /\ ((0 <= q)%Q -> 0 <= round_half_even q).
Proof.
  unfold round_half_even.
  pose proof (Qfloor_le q) as Hlo.
  assert (Hsucc : (inject_Z (Qfloor q + 1) == inject_Z (Qfloor q) + 1)%Q)
    by (rewrite inject_Z_plus; reflexivity).
  split.
  - destruct (q - inject_Z (Qfloor q) ?= 1 # 2)%Q eqn:Hc.
    + apply Qeq_alt in Hc. destruct (Z.even (Qfloor q)); [lra | rewrite Hsucc; lra].
    + lra.
    + apply Qgt_alt in Hc. rewrite Hsucc. lra.
  - intros Hq.
    assert (Hf : 0 <= Qfloor q) by (change 0 with (Qfloor 0); now apply Qfloor_resp_le).
    destruct (q - inject_Z (Qfloor q) ?= 1 # 2)%Q; [destruct (Z.even (Qfloor q))| |]; lia.
Qed.

Lemma binade_below_32 (p : Q) : (0 < p)%Q -> (p < 32)%Q -> binade p <= 4.
Proof.
  intros Hpos Hlt. unfold binade.
  destruct (Qle_bool (2 ^ (Z.log2 (Qnum p) - Z.log2 (Z.pos (Qden p)))) p) eqn:Hle.
  - apply Qle_bool_iff in Hle.
    assert (H : (2 ^ (Z.log2 (Qnum p) - Z.log2 (Z.pos (Qden p))) < 2 ^ 5)%Q).
    { eapply Qle_lt_trans; [exact Hle|]. exact Hlt. }
    apply Qpower_lt_compat_l_inv in H; [lia | reflexivity].
  - destruct p as [a b]. unfold Qlt in Hpos, Hlt. cbn [Qnum Qden] in *.
    assert (Ha : Z.log2 a <= Z.log2 (Z.pos b * 2 ^ 5)) by (apply Z.log2_le_mono; lia).
    rewrite Z.log2_mul_pow2 in Ha by lia. lia.
Qed.

Lemma to_double_nonneg (p : Q) :
  (0 <= p)%Q ->
  to_double p
  = if Qeq_bool p 0 then 0%Q
    else (inject_Z (round_half_even (p / 2 ^ Z.max (binade p - 52) (-1074)))
          * 2 ^ Z.max (binade p - 52) (-1074))%Q.
Proof.
  intros Hp. unfold to_double.
  assert (Habs : Qabs p = p).
  { destruct p as [a b]. unfold Qle in Hp. simpl in Hp. unfold Qabs.
    f_equal. lia. }
  rewrite Habs. destruct (Qeq_bool p 0) eqn:Hz; [reflexivity|].
  assert (Hs : Z.sgn (Qnum p) = 1).
  { destruct p as [a b]. unfold Qle in Hp. simpl in *.
    apply Z.sgn_pos. destruct (Z.eq_dec a 0) as [-> | Hne]; [|lia].
    discriminate Hz. }
  rewrite Hs, Z.mul_1_l. reflexivity.
Qed.

Lemma random_coordinate_range (r : Q) :
  random_value r -> 0 <= random_coordinate r < GRID_SIZE.
Proof.
  intros [Hlo Hhi]. unfold random_coordinate, GRID_SIZE.
  change (inject_Z 20) with 20%Q.
  set (p := (r * 20)%Q).
  assert (Hp0 : (0 <= p)%Q) by (subst p; lra).
  assert (Hp1 : (p <= 20 - 20 * (1 # 9007199254740992))%Q) by (subst p; lra).
  rewrite (to_double_nonneg p Hp0).
  destruct (Qeq_bool p 0) eqn:Hz; [change (Qfloor 0) with 0; lia|].
  assert (Hpos : (0 < p)%Q).
  { apply Qle_lteq in Hp0 as [H | H]; [exact H|].
    symmetry in H. apply Qeq_bool_iff in H. congruence. }
  assert (HE : binade p <= 4) by (apply binade_below_32; [exact Hpos | lra]).
  set (ulp := (2 ^ Z.max (binade p - 52) (-1074))%Q).
  assert (Hulp0 : (0 < ulp)%Q) by (apply Qpower_0_lt; reflexivity).
  assert (Hulp1 : (ulp <= 1 # 281474976710656)%Q).
  { change (1 # 281474976710656)%Q with (2 ^ (-48))%Q.
    apply Qpower_le_compat_l; [lia | discriminate]. }
  destruct (round_half_even_bounds (p / ulp)) as [Hup Hnn].
  assert (Hq : (p / ulp * ulp == p)%Q) by (field; lra).
  assert (Hd1 : (inject_Z (round_half_even (p / ulp)) * ulp <= p + (1 # 2) * ulp)%Q).
  { rewrite <- Hq at 2. rewrite <- Qmult_plus_distr_l.
    apply Qmult_le_compat_r; [exact Hup | lra]. }
  assert (Hd0 : (0 <= inject_Z (round_half_even (p / ulp)) * ulp)%Q).
  { apply Qmult_le_0_compat; [|lra].
    change 0%Q with (inject_Z 0). rewrite <- Zle_Qle. apply Hnn.
    apply Qle_shift_div_l; [exact Hulp0 | lra]. }
  split.
  - change 0 with (Qfloor 0). apply Qfloor_resp_le, Hd0.
  - rewrite Zlt_Qlt. eapply Qle_lt_trans; [apply Qfloor_le|].
    change (inject_Z 20) with 20%Q. lra.
Qed.

(** X9: when [generateFood] returns, it returns the first cell drawn that
    is not on the snake it was given: every pair of random values before it
    gave a cell on that snake, the values after it are left for later, and
    with random values that are doubles in [0,1) the cell is on the board.
    A cell is drawn as the floors of the double products [r * GRID_SIZE]. *)
Theorem generateFood_returns_first_free (sn : list Position) (rs rest : list Q)
    (newFood : Position) :
  generateFood_loop sn rs = Some (newFood, rest) ->
  ~ In newFood sn
  /\ (exists (rejected : list (Q * Q)) (rx ry : Q),
        rs = (flat_map (fun p => [fst p; snd p]) rejected ++ rx :: ry :: rest)%list
        /\ newFood = mkPosition (random_coordinate rx) (random_coordinate ry)
        /\ Forall (fun p => In (mkPosition (random_coordinate (fst p))
                                           (random_coordinate (snd p))) sn) rejected)
  /\ (Forall random_value rs -> in_grid newFood).
Proof.
  revert rest newFood. induction rs as [| a | rx ry l IH] using list_pair_ind;
    intros rest newFood; simpl; try discriminate.
  destruct (existsb _ sn) eqn:Hocc.
  - intros Hgen. destruct (IH rest newFood Hgen) as (Hfree & (rej & qx & qy & -> & Hf & Hrej) & Hgrid).
    split; [exact Hfree|]. split.
    + exists ((rx, ry) :: rej), qx, qy. split; [reflexivity|]. split; [exact Hf|].
      constructor; [now apply on_snake_In | exact Hrej].
    + intros Hall. apply Hgrid. inversion Hall as [|? ? _ Hall']; subst.
      inversion Hall'; subst. assumption.
  - intros [= <- <-]. split; [now apply off_snake_not_In|]. split.
    + exists [], rx, ry. repeat split. constructor.
    + intros Hall. inversion Hall as [|? ? Hx Hall']; subst.
      inversion Hall' as [|? ? Hy _]; subst.
      split; simpl; now apply random_coordinate_range.
Qed.

Lemma generateFood_returns_first_free_witness :
  ~ In (mkPosition 5 5) [mkPosition 19 19]
  /\ in_grid (mkPosition 5 5).
Proof.
  destruct (generateFood_returns_first_free [mkPosition 19 19]
              [double_0_95; double_0_95; 1 # 4; 1 # 4]%Q [] (mkPosition 5 5) eq_refl)
    as (Hfree & _ & Hgrid).
  split; [exact Hfree|]. apply Hgrid.
  repeat constructor; discriminate.
Defined.

(** The cells of [board] are the cells of the grid. *)
Lemma board_In (p : Position) : In p board <-> in_grid p.
Proof.
  unfold board, in_grid. rewrite in_flat_map. split.
  - intros (cy & Hcy & Hp). apply in_map_iff in Hp as (cx & <- & Hcx).
    apply list_elem_of_In, elem_of_seqZ in Hcx, Hcy. simpl. lia.
  - intros [Hx Hy]. exists (y p). split.
    + apply list_elem_of_In, elem_of_seqZ. lia.
    + apply in_map_iff. exists (x p). split; [now destruct p|].
      apply list_elem_of_In, elem_of_seqZ. lia.
Qed.

(** ** The food along every run *)

Lemma generateFood_loop_rest (sn : list Position) (rs rest : list Q) (newFood : Position) :
  generateFood_loop sn rs = Some (newFood, rest) ->
  Forall random_value rs -> Forall random_value rest.
Proof.
  revert rest newFood. induction rs as [| a | rx ry l IH] using list_pair_ind;
    intros rest newFood; simpl; try discriminate.
  intros Hgen Hall. inversion Hall as [|? ? _ Hall']; subst.
  inversion Hall' as [|? ? _ Hl]; subst.
  destruct (existsb _ sn); [eapply IH; eassumption|].
  injection Hgen as _ <-. exact Hl.
Qed.

Lemma step_food_on_board (op : Op) (w w' : World) :
  in_grid (food (game w)) /\ Forall random_value (random w) ->
  step op w = Some w' ->
  in_grid (food (game w')) /\ Forall random_value (random w').
Proof.
  intros [Hfood Hrs] Hstep. destruct (Tick_or_not op) as [-> | Hop].
  - apply step_Tick_Ticked in Hstep.
    destruct Hstep as [Hidle | f o ? ? Hs Hwall | f o ? ? Hs Hin Hself
                       | f o ? ? Hs Hin Hfree Hfd
                       | f o newFood rest ? ? Hs Hin Hfree Hfd Hgen];
      try (split; assumption).
    rewrite fed_food.
    assert (Hr : random (fed (advance f (direction (game w))) newFood rest w) = rest)
      by (unfold fed; destruct (JS.gt _ _); reflexivity).
    rewrite Hr. split.
    + now apply (generateFood_returns_first_free (f :: o) (random w) rest newFood Hgen).
    + eapply generateFood_loop_rest; eassumption.
  - destruct (step_other_frame op w w' Hop Hstep) as (_ & _ & -> & _ & [-> | ->] & _).
    + split; assumption.
    + split; [|assumption]. unfold in_grid, INITIAL_FOOD, GRID_SIZE. simpl. lia.
Qed.

(** X11: if every value of [Math.random()] is a double in [0,1), the food
    is on the board in every reachable world. *)
Theorem reachable_food_on_board (ops : list Op) (ls : gmap string string)
    (rs : list Q) (w : World) :
  Forall random_value rs ->
  run ops (mount ls rs) = Some w ->
  in_grid (food (game w)).
Proof.
  intros Hrs Hrun.
  apply (run_invariant
           (fun w => in_grid (food (game w)) /\ Forall random_value (random w))
           step_food_on_board ops (mount ls rs) w); [|exact Hrun].
  split; [unfold in_grid, GRID_SIZE; simpl; lia | exact Hrs].
Qed.

Lemma reachable_food_on_board_witness :
  exists w,
    run to_first_food (mount ∅ [1 # 4; 1 # 4]%Q) = Some w
    /\ in_grid (food (game w)).
Proof.
  destruct first_food_run as (w & Hrun & _). exists w. split; [exact Hrun|].
  apply (reachable_food_on_board to_first_food ∅ [1 # 4; 1 # 4]%Q w); [|exact Hrun].
  repeat constructor; discriminate.
Defined.

(** ** While the game is not running *)

Lemma with_running_same (w : World) (b : bool) :
  gameRunning (game w) = b -> with_running b w = w.
Proof. intros <-. open_world w. reflexivity. Qed.

(** X12: while [gameRunning] is false (before the first start, while
    paused, after the game is over), ticks, keys and pause change nothing at
    all: only start and reset do. *)
Theorem nothing_moves_while_stopped (ops : list Op) (w : World) :
  gameRunning (game w) = false ->
  Forall plays_on ops ->
  run ops w = Some w.
Proof.
  intros Hrun Hops. induction Hops as [|op ops Hop _ IH]; [reflexivity|].
  assert (Hstep : step op w = Some w).
  { destruct Hop as [-> | [-> | [key ->]]].
    - simpl. unfold exec. rewrite moveSnake_idle by auto. reflexivity.
    - rewrite step_Pause. now rewrite with_running_same.
    - simpl. unfold exec. rewrite handleKeyPress_idle by assumption. reflexivity. }
  simpl. rewrite Hstep. exact IH.
Qed.

Lemma nothing_moves_while_stopped_witness :
  run [Tick; Key "ArrowLeft"; Key " "; Pause; Tick] (mount ∅ []) = Some (mount ∅ []).
Proof.
  apply nothing_moves_while_stopped; [reflexivity|].
  repeat (apply List.Forall_cons; [unfold plays_on; eauto|]). apply List.Forall_nil.
Defined.

(** X13: pausing a running game and starting it again gives back exactly
    the world before the pause; starting a game that is over does what reset
    followed by start does. *)
Theorem pause_resume_and_play_again (w : World) :
  (gameRunning (game w) = true -> gameOver (game w) = false ->
   run [Pause; Start] w = Some w)
  /\ (gameOver (game w) = true -> step Start w = run [Reset; Start] w).
Proof.
  split.
  - intros Hrun Hov. cbn [run]. rewrite step_Pause. rewrite step_Start.
    project. rewrite Hov. open_world w. subst. reflexivity.
  - intros Hov. rewrite step_Start, Hov. cbn [run].
    rewrite step_Reset, step_Start. reflexivity.
Qed.

Lemma pause_resume_and_play_again_witness :
  run [Pause; Start] cruising = Some cruising.
Proof.
  apply (proj1 (pause_resume_and_play_again cruising)); reflexivity.
Defined.

(** ** Two turns within one tick *)

(** X14: the axis rule compares a key with [direction] as the previous key
    left it, not with the way the snake last moved.  So for a snake of two
    cells or more, a perpendicular arrow followed by the arrow opposite to
    the movement, pressed before the next tick, are both taken, and that
    tick ends the game with the snake unchanged. *)
Theorem two_turns_reverse_the_snake (w : World) (first second : Position)
    (others : list Position) (k1 k2 : string) (v1 : Position) :
  gameRunning (game w) = true -> gameOver (game w) = false ->
  snake (game w) = first :: second :: others ->
  unit_vector (direction (game w)) ->
  second = advance first (opposite (direction (game w))) ->
  arrow_vector k1 = Some v1 ->
  x v1 * x (direction (game w)) + y v1 * y (direction (game w)) = 0 ->
  arrow_vector k2 = Some (opposite (direction (game w))) ->
  exists w',
    run [Key k1; Key k2; Tick] w = Some w'
    /\ direction (game w') = opposite (direction (game w))
    /\ gameOver (game w') = true
    /\ snake (game w') = snake (game w).
Proof.
  intros Hrun Hov Hsn Hd Hsecond Hk1 Hperp Hk2.
  pose proof (arrow_vector_unit k1 v1 Hk1) as Hv1.
  set (d := direction (game w)) in *.
  (* first key *)
  assert (H1 : step (Key k1) w = Some (with_direction v1 w)).
  { simpl. unfold exec. rewrite (handleKeyPress_arrow w k1 v1 Hrun Hk1). fold d.
    replace ((if y v1 =? 0 then x d else y d) =? 0) with true; [reflexivity|].
    symmetry. apply Z.eqb_eq.
    destruct Hv1 as [-> | [-> | [-> | ->]]], Hd as [Hd | [Hd | [Hd | Hd]]];
      rewrite Hd in *; simpl in *; lia. }
  (* second key *)
  assert (H2 : step (Key k2) (with_direction v1 w)
               = Some (with_direction (opposite d) (with_direction v1 w))).
  { simpl. unfold exec.
    rewrite (handleKeyPress_arrow (with_direction v1 w) k2 (opposite d)) by assumption.
    project.
    replace ((if y (opposite d) =? 0 then x v1 else y v1) =? 0) with true; [reflexivity|].
    symmetry. apply Z.eqb_eq.
    destruct Hv1 as [-> | [-> | [-> | ->]]], Hd as [Hd | [Hd | [Hd | Hd]]];
      rewrite Hd in *; simpl in *; lia. }
  (* the tick *)
  set (w2 := with_direction (opposite d) (with_direction v1 w)).
  assert (Hhit : In (advance first (direction (game w2))) (first :: second :: others)).
  { subst w2. project. rewrite <- Hsecond. right. now left. }
  destruct (in_grid_dec (advance first (direction (game w2)))) as [Hgrid | Hwall].
  - exists (collided "You hit yourself! Final score: " w2).
    cbn [run]. rewrite H1. cbn [run]. rewrite H2. cbn [run]. fold w2.
    cbn [step]. unfold exec.
    rewrite (moveSnake_self w2 first (second :: others)) by assumption.
    repeat split; assumption.
  - exists (collided "You hit the wall! Final score: " w2).
    cbn [run]. rewrite H1. cbn [run]. rewrite H2. cbn [run]. fold w2.
    cbn [step]. unfold exec.
    rewrite (moveSnake_wall w2 first (second :: others)) by assumption.
    repeat split; assumption.
Qed.

Lemma two_turns_reverse_the_snake_witness :
  exists w',
    run [Key "ArrowUp"; Key "ArrowLeft"; Tick] cruising = Some w'
    /\ direction (game w') = mkPosition (-1) 0
    /\ gameOver (game w') = true
    /\ snake (game w') = snake (game cruising).
Proof.
  apply (two_turns_reverse_the_snake cruising (mkPosition 3 3) (mkPosition 2 3)
           [mkPosition 1 3] "ArrowUp" "ArrowLeft" (mkPosition 0 (-1)));
    try reflexivity.
  unfold unit_vector. simpl. auto.
Defined.

(** ** The buttons *)

(** X15: in every reachable world the side panel shows exactly two buttons:
    Start Game (game neither running nor over), Pause (running) or Play
    Again (over), and below it Reset; pressing either always returns. *)
Theorem reachable_controls (ops : list Op) (ls : gmap string string) (rs : list Q)
    (w : World) :
  run ops (mount ls rs) = Some w ->
  (exists b, controls (game w) = [b; mkButton "Reset" Reset]
             /\ ((b = mkButton "Start Game" Start
                  /\ gameRunning (game w) = false /\ gameOver (game w) = false)
                 \/ (b = mkButton "Pause (Space)" Pause
                     /\ gameRunning (game w) = true /\ gameOver (game w) = false)
                 \/ (b = mkButton "Play Again" Start
                     /\ gameRunning (game w) = false /\ gameOver (game w) = true)))
  /\ (forall b, In b (controls (game w)) -> exists w', step (onClick b) w = Some w').
Proof.
  intros Hrun.
  assert (Hinv : over_stops (game w)).
  { apply (run_over_stops ops (mount ls rs) w); [|exact Hrun].
    unfold over_stops. simpl. discriminate. }
  unfold over_stops in Hinv. unfold controls. split.
  - destruct (gameRunning (game w)) eqn:Hr, (gameOver (game w)) eqn:Ho; simpl;
      try (specialize (Hinv eq_refl); discriminate);
      eexists; (split; [reflexivity|]); auto 6.
  - intros b Hb.
    assert (Hop : onClick b = Start \/ onClick b = Pause \/ onClick b = Reset).
    { destruct (gameRunning (game w)), (gameOver (game w)); simpl in Hb;
        repeat (destruct Hb as [<- | Hb]; [simpl; auto|]); destruct Hb. }
    destruct Hop as [-> | [-> | ->]];
      [rewrite step_Start | rewrite step_Pause | rewrite step_Reset]; eauto.
Qed.

Lemma reachable_controls_witness :
  exists b, controls (game (with_running true (mount ∅ [])))
            = [b; mkButton "Reset" Reset].
Proof.
  destruct (reachable_controls [Start] ∅ [] (with_running true (mount ∅ [])) eq_refl)
    as [(b & Hb & _) _].
  exists b. exact Hb.
Defined.

(** ** The interval timer *)

Lemma live_cleared_empty (id : positive) : (∅ : gset positive) ∖ {[id]} = ∅.
Proof. apply difference_disjoint_L, disjoint_empty_l. Qed.

(** The cleanup clears whatever interval is live. *)
Lemma gameLoop_cleanup_clears (t : Timers) :
  (live t = ∅ \/ exists id, gameLoopRef t = Some id /\ live t = {[id]}) ->
  live (gameLoop_cleanup t) = ∅.
Proof.
  unfold gameLoop_cleanup. intros [He | (id & -> & Hl)]; simpl.
  - destruct (gameLoopRef t); simpl; rewrite ?He; [apply live_cleared_empty | reflexivity].
  - rewrite Hl. apply difference_diag_L.
Qed.

(** What the timers look like after the effect ran for a render with
    [gameRunning = b]. *)
Lemma gameLoop_effect_after_cleanup (b : bool) (t : Timers) :
  (live t = ∅ \/ exists id, gameLoopRef t = Some id /\ live t = {[id]}) ->
  if b
  then exists id, gameLoopRef (gameLoop_effect b (gameLoop_cleanup t)) = Some id
                  /\ live (gameLoop_effect b (gameLoop_cleanup t)) = {[id]}
  else live (gameLoop_effect b (gameLoop_cleanup t)) = ∅.
Proof.
  intros Ht. pose proof (gameLoop_cleanup_clears t Ht) as Hclean.
  unfold gameLoop_effect. destruct b; simpl.
  - eexists. split; [reflexivity|]. rewrite Hclean. apply (right_id_L ∅ (∪)).
  - destruct (gameLoopRef (gameLoop_cleanup t)); simpl; rewrite Hclean;
      [apply live_cleared_empty | reflexivity].
Qed.

(** X16: however the renders follow one another, after each of them at most
    one interval is live: exactly one, the one in [gameLoopRef], if that
    render had [gameRunning] true, and none if it had it false; the cleanup
    at unmount leaves none. *)
Theorem gameLoop_keeps_one_timer (first : bool) (later : list bool) :
  (if List.last later first
   then exists id, gameLoopRef (gameLoop_renders first later) = Some id
                   /\ live (gameLoop_renders first later) = {[id]}
   else live (gameLoop_renders first later) = ∅)
  /\ live (gameLoop_cleanup (gameLoop_renders first later)) = ∅.
Proof.
  assert (Hmain : if List.last later first
                  then exists id, gameLoopRef (gameLoop_renders first later) = Some id
                                  /\ live (gameLoop_renders first later) = {[id]}
                  else live (gameLoop_renders first later) = ∅).
  { unfold gameLoop_renders.
    induction later as [|b later IH] using rev_ind.
    - simpl. destruct first; simpl;
        [eexists; split; [reflexivity | apply (right_id_L ∅ (∪))] | reflexivity].
    - rewrite fold_left_app, last_last. simpl.
      apply gameLoop_effect_after_cleanup.
      destruct (List.last later first); [right | left]; exact IH. }
  split; [exact Hmain|].
  apply gameLoop_cleanup_clears.
  destruct (List.last later first); [right | left]; exact Hmain.
Qed.

(** ** The board on screen *)

Lemma flat_map_rows_lookup {A B : Type} (f : A -> list B) (n : nat) (l : list A)
    (j i : nat) :
  (forall a, length (f a) = n) -> (i < n)%nat ->
  flat_map f l !! (j * n + i)%nat = l !! j ≫= fun a => f a !! i.
Proof.
  intros Hlen Hi. revert j. induction l as [|a l IH]; intros j; simpl.
  - now rewrite !lookup_nil.
  - destruct j as [|j]; simpl.
    + rewrite lookup_app_l by (rewrite Hlen; exact Hi). reflexivity.
    + rewrite lookup_app_r by (rewrite Hlen; lia).
      replace (n + j * n + i - length (f a))%nat with (j * n + i)%nat
        by (rewrite Hlen; lia).
      apply IH.
Qed.

Lemma lookup_map {A B : Type} (f : A -> B) (l : list A) (i : nat) :
  map f l !! i = f <$> l !! i.
Proof.
  revert i. induction l as [|a l IH]; intros [|i]; simpl; auto.
Qed.

(** X17: the board is drawn as 400 cells, row after row from the top and
    left to right within a row: the cell of column [cx] and row [cy] comes at
    index [cy * 20 + cx], with key [`${cx}-${cy}`] and the class of that
    cell. *)
Theorem renderGrid_row_major (s : GameState) (cx cy : nat) :
  (cx < 20)%nat -> (cy < 20)%nat ->
  renderGrid s !! (cy * 20 + cx)%nat
  = Some (mkGridCell (JS.toString (Z.of_nat cx) ++ "-" ++ JS.toString (Z.of_nat cy))
                     (cellClass s (Z.of_nat cx) (Z.of_nat cy)))
  /\ length (renderGrid s) = 400%nat.
Proof.
  intros Hcx Hcy. unfold renderGrid, GRID_SIZE. split.
  - rewrite (flat_map_rows_lookup _ 20 _ cy cx);
      [| intros a; now rewrite length_map, length_seqZ | exact Hcx].
    rewrite lookup_seqZ_lt by lia. cbn [mbind option_bind].
    rewrite lookup_map, lookup_seqZ_lt by lia. cbn [fmap option_fmap option_map].
    now rewrite !Z.add_0_l.
  - rewrite flat_map_concat_map.
    change (length (concat ?l)) with (length (concat l)).
    rewrite length_concat, map_map.
    erewrite map_ext; [| intros a; rewrite length_map, length_seqZ; reflexivity].
    reflexivity.
Qed.

Lemma renderGrid_row_major_witness :
  renderGrid (game cruising) !! 63%nat
  = Some (mkGridCell "3-3" head_class).
Proof.
  apply (proj1 (renderGrid_row_major (game cruising) 3 3 ltac:(lia) ltac:(lia))).
Defined.

Lemma flat_map_cells {B : Type} (g : Z -> Z -> B) (rows cols : list Z) :
  flat_map (fun cy => map (fun cx => g cx cy) cols) rows
  = map (fun p => g (x p) (y p))
        (flat_map (fun cy => map (fun cx => mkPosition cx cy) cols) rows).
Proof.
  induction rows as [|cy rows IH]; simpl; [reflexivity|].
  rewrite List.map_app, List.map_map, IH. reflexivity.
Qed.

(** The rendered board is [board] with a key and a class put on each cell. *)
Lemma renderGrid_board (s : GameState) :
  renderGrid s
  = map (fun p => mkGridCell (JS.toString (x p) ++ "-" ++ JS.toString (y p))
                             (cellClass s (x p) (y p)))
        board.
Proof.
  unfold renderGrid, board.
  apply (flat_map_cells (fun cx cy => mkGridCell (JS.toString cx ++ "-" ++ JS.toString cy)
                                                 (cellClass s cx cy))).
Qed.

Lemma board_NoDup : List.NoDup board.
Proof.
  assert (H : nodup Position_eq_dec board = board) by (vm_compute; reflexivity).
  rewrite <- H. apply NoDup_nodup.
Qed.

Lemma filter_map_length {A B : Type} (f : A -> B) (P : B -> bool) (l : list A) :
  length (List.filter P (map f l)) = length (List.filter (fun a => P (f a)) l).
Proof.
  induction l as [|a l IH]; simpl; [reflexivity|].
  destruct (P (f a)); simpl; now rewrite IH.
Qed.

(** Counting the cells of a duplicate-free list that a test picks out. *)
Lemma filter_length_NoDup {A : Type} (P : A -> bool) (l picked : list A) :
  List.NoDup l -> List.NoDup picked ->
  (forall a, In a l /\ P a = true <-> In a picked) ->
  length (List.filter P l) = length picked.
Proof.
  intros Hl Hp Hiff.
  apply Permutation.Permutation_length, Permutation.NoDup_Permutation.
  - now apply List.NoDup_filter.
  - exact Hp.
  - intros a. rewrite filter_In. apply Hiff.
Qed.

Lemma count_class_board (s : GameState) (c : string) (picked : list Position) :
  List.NoDup picked ->
  (forall p, in_grid p /\ cellClass s (x p) (y p) = c <-> In p picked) ->
  count_class c (renderGrid s) = length picked.
Proof.
  intros Hnd Hiff. unfold count_class. rewrite renderGrid_board, filter_map_length.
  apply filter_length_NoDup; [apply board_NoDup | exact Hnd |].
  intros p. cbn [className]. rewrite board_In, String.eqb_eq. apply Hiff.
Qed.

(** The class of a cell, read off the three tests of [cellClass]. *)
Lemma cellClass_cases (s : GameState) (p : Position) :
  (cellClass s (x p) (y p) = head_class <-> hd_error (snake s) = Some p)
  /\ (cellClass s (x p) (y p) = body_class
      <-> hd_error (snake s) <> Some p /\ In p (tail (snake s)))
  /\ (cellClass s (x p) (y p) = food_class
      <-> ~ In p (snake s) /\ food s = p).
Proof.
  unfold cellClass.
  change (fun segment : Position => (x segment =? x p) && (y segment =? y p))
    with (at_cell p).
  assert (Hhead : match snake s with
                  | first :: _ => (x first =? x p) && (y first =? y p)
                  | [] => false
                  end = true <-> hd_error (snake s) = Some p).
  { destruct (snake s) as [|first others]; simpl; [split; discriminate|].
    rewrite food_check_true. split; [intros ->; reflexivity | intros [= ->]; reflexivity]. }
  assert (Hsnake : In p (snake s) <-> hd_error (snake s) = Some p \/ In p (tail (snake s))).
  { destruct (snake s) as [|first others]; simpl; intuition congruence. }
  pose proof (on_snake_In p (tail (snake s))) as Hbody.
  pose proof (food_check_true (food s) p) as Hfood.
  destruct (match snake s with [] => false | first :: _ => _ end);
    destruct (existsb (at_cell p) (tail (snake s)));
    destruct ((x (food s) =? x p) && (y (food s) =? y p));
    (split; [|split]); split;
    try (intros Heq; vm_compute in Heq; discriminate Heq);
    try (intros _; reflexivity);
    intuition (try discriminate; try congruence).
Qed.

(** X18: when the cells of the snake are distinct and on the board, the
    board shows each of them once: one cell in the head colour and
    [length snake - 1] cells in the body colour.  The food colour is on
    exactly one cell when the food is on the board and off the snake, and on
    none when the food lies under the snake. *)
Theorem renderGrid_draws_each_cell_once (s : GameState) :
  snake s <> [] -> List.NoDup (snake s) -> Forall in_grid (snake s) ->
  count_class head_class (renderGrid s) = 1%nat
  /\ count_class body_class (renderGrid s) = (length (snake s) - 1)%nat
  /\ (in_grid (food s) -> ~ In (food s) (snake s) ->
      count_class food_class (renderGrid s) = 1%nat)
  /\ (In (food s) (snake s) -> count_class food_class (renderGrid s) = 0%nat).
Proof.
  intros Hne Hnd Hgrid.
  destruct (snake s) as [|first others] eqn:Hsn; [congruence|].
  inversion Hnd as [|? ? Hfirst Hothers]; subst.
  inversion Hgrid as [|? ? Hfg Hog]; subst.
  rewrite List.Forall_forall in Hog.
  split; [|split; [|split]].
  - apply (count_class_board s head_class [first]).
    + repeat constructor. intros [].
    + intros p. rewrite (proj1 (cellClass_cases s p)), Hsn. simpl.
      split; [intros [_ [= ->]]; auto | intros [<- | []]; auto].
  - replace (length (first :: others) - 1)%nat with (length others) by (simpl; lia).
    apply (count_class_board s body_class others); [exact Hothers|].
    intros p. rewrite (proj1 (proj2 (cellClass_cases s p))), Hsn. simpl.
    split; [tauto|]. intros Hp. split; [now apply Hog|].
    split; [|exact Hp]. intros [= ->]. contradiction.
  - intros Hfood Hoff. apply (count_class_board s food_class [food s]).
    + repeat constructor. intros [].
    + intros p. rewrite (proj2 (proj2 (cellClass_cases s p))), Hsn. simpl.
      split; [intros (_ & _ & ->); auto|].
      intros [<- | []]. auto.
  - intros Hunder. apply (count_class_board s food_class []); [constructor|].
    intros p. rewrite (proj2 (proj2 (cellClass_cases s p))), Hsn. simpl.
    split; [|tauto]. intros (_ & Hoff & Hp). subst p. tauto.
Qed.

Lemma renderGrid_draws_each_cell_once_witness :
  count_class head_class (renderGrid (game cruising)) = 1%nat
  /\ count_class body_class (renderGrid (game cruising)) = 2%nat.
Proof.
  destruct (renderGrid_draws_each_cell_once (game cruising)) as (Hh & Hb & _).
  - discriminate.
  - repeat constructor; simpl; intuition discriminate.
  - repeat constructor; unfold GRID_SIZE; simpl; lia.
  - split; [exact Hh | exact Hb].
Defined.

(** ** Where the new food can land *)

(** X19: on a tick that eats, the new food is on no cell the snake had
    before the tick; so if it lies on the grown snake at all, it lies on the
    new head, the very cell where the food just was. *)
Theorem new_food_only_under_new_head (w w' : World) (first : Position)
    (others : list Position) :
  gameRunning (game w) = true -> gameOver (game w) = false ->
  snake (game w) = first :: others ->
  in_grid (advance first (direction (game w))) ->
  ~ In (advance first (direction (game w))) (first :: others) ->
  advance first (direction (game w)) = food (game w) ->
  step Tick w = Some w' ->
  ~ In (food (game w')) (snake (game w))
  /\ (In (food (game w')) (snake (game w')) -> food (game w') = food (game w)).
Proof.
  intros Hrun Hov Hsn Hgrid Hfree Hfood Hstep.
  simpl in Hstep. apply exec_Some in Hstep as [[] Hstep].
  pose proof (generateFood_avoids_closure_snake w w' first others
                Hrun Hov Hsn Hgrid Hfree Hfood Hstep) as Hoff.
  split; [exact Hoff|].
  destruct (generateFood_loop (first :: others) (random w)) as [[newFood rest]|] eqn:Hgen.
  - rewrite (moveSnake_eat w first others Hrun Hov Hsn newFood rest) in Hstep by assumption.
    injection Hstep as <-. rewrite fed_snake, fed_food in *.
    intros [Hhead | Hold]; [congruence | contradiction].
  - rewrite (moveSnake_eat_stuck w first others) in Hstep by assumption. discriminate.
Qed.

Lemma new_food_only_under_new_head_witness :
  ~ In (mkPosition 5 5) [mkPosition 1 1].
Proof.
  apply (new_food_only_under_new_head about_to_eat
           (fed (mkPosition 2 1) (mkPosition 5 5) [] about_to_eat)
           (mkPosition 1 1) []); try reflexivity.
  - unfold in_grid, GRID_SIZE. simpl. lia.
  - simpl. intros [[=] | []].
Defined.

(** ** What an operation leaves alone *)

Lemma Ticked_direction (w w' : World) :
  Ticked w w' -> direction (game w') = direction (game w).
Proof.
  intros []; try reflexivity. unfold fed. destruct (JS.gt _ _); reflexivity.
Qed.

(** X20: a tick never changes [direction]; a key never changes the snake,
    the food, the score, [gameOver], the high score, the store, the trace or
    the random values, and it can only clear [gameRunning], never set it. *)
Theorem ticks_and_keys_keep_apart (w w' : World) :
  (step Tick w = Some w' -> direction (game w') = direction (game w))
  /\ (forall key, step (Key key) w = Some w' ->
        snake (game w') = snake (game w) /\ food (game w') = food (game w)
        /\ score (game w') = score (game w) /\ gameOver (game w') = gameOver (game w)
        /\ highScore (game w') = highScore (game w)
        /\ (gameRunning (game w') = true -> gameRunning (game w) = true)
        /\ localStorage w' = localStorage w /\ trace w' = trace w
        /\ random w' = random w).
Proof.
  split.
  - intros Hstep. apply Ticked_direction, step_Tick_Ticked, Hstep.
  - intros key Hstep. simpl in Hstep. apply exec_Some in Hstep as [u Hu].
    destruct (handleKeyPress_frame w key)
      as (w1 & Heq & Hsn & Hfd & Hsc & Hov & Hhs & Hrun & Hls & Htr & Hrs).
    rewrite Heq in Hu. injection Hu as _ <-.
    repeat split; try assumption.
    intros Hr. destruct Hrun as [<- | Hoff]; [exact Hr | congruence].
Qed.

Lemma ticks_and_keys_keep_apart_witness :
  direction (game (moved (mkPosition 4 3) cruising)) = direction (game cruising).
Proof.
  apply (proj1 (ticks_and_keys_keep_apart cruising (moved (mkPosition 4 3) cruising))).
  reflexivity.
Defined.

(** X21: the space key does exactly what the pause button does, and a key
    that is neither an arrow nor space does nothing. *)
Theorem space_pauses_other_keys_ignored (w : World) (key : string) :
  step (Key " ") w = step Pause w
  /\ (arrow_vector key = None -> key <> " " -> step (Key key) w = Some w).
Proof.
  split.
  - rewrite step_Pause. simpl. unfold exec.
    destruct (gameRunning (game w)) eqn:Hrun.
    + now rewrite handleKeyPress_space.
    + rewrite handleKeyPress_idle by assumption. simpl.
      now rewrite with_running_same.
  - unfold arrow_vector. intros Harrow Hspace. simpl. unfold exec.
    destruct (gameRunning (game w)) eqn:Hrun; cycle 1.
    { now rewrite handleKeyPress_idle. }
    apply String.eqb_neq in Hspace.
    open_world w. subst. unfold_ops.
    destruct (String.eqb key "ArrowUp"); [discriminate|].
    destruct (String.eqb key "ArrowDown"); [discriminate|].
    destruct (String.eqb key "ArrowLeft"); [discriminate|].
    destruct (String.eqb key "ArrowRight"); [discriminate|].
    rewrite Hspace. reflexivity.
Qed.

Lemma space_pauses_other_keys_ignored_witness :
  step (Key "Enter") cruising = Some cruising.
Proof.
  apply (proj2 (space_pauses_other_keys_ignored cruising "Enter"));
    [reflexivity | discriminate].
Defined.

(** ** The score *)

Lemma board_length : length board = 400%nat.
Proof. reflexivity. Qed.

(** X22: in every reachable world the score is a multiple of 10 between 0
    and 3990, and the snake has at most 400 cells. *)
Theorem reachable_score_bounded (ops : list Op) (ls : gmap string string)
    (rs : list Q) (w : World) :
  run ops (mount ls rs) = Some w ->
  (length (snake (game w)) <= 400)%nat
  /\ 0 <= score (game w) <= 3990
  /\ score (game w) mod 10 = 0.
Proof.
  intros Hrun.
  destruct (reachable_well_formed ops ls rs w Hrun) as (Hne & Hgrid & Hnd & _ & _ & Hsc).
  assert (Hlen : (length (snake (game w)) <= 400)%nat).
  { rewrite <- board_length. apply NoDup_incl_length; [exact Hnd|].
    intros p Hp. apply board_In. rewrite List.Forall_forall in Hgrid. now apply Hgrid. }
  assert (Hpos : (1 <= length (snake (game w)))%nat).
  { destruct (snake (game w)); [congruence | simpl; lia]. }
  split; [exact Hlen|]. rewrite Hsc. split; [lia|].
  rewrite Z.mul_comm. apply Z.mod_mul. lia.
Qed.

Lemma reachable_score_bounded_witness :
  exists w,
    run to_first_food (mount ∅ [1 # 4; 1 # 4]%Q) = Some w
    /\ 0 <= score (game w) <= 3990.
Proof.
  destruct first_food_run as (w & Hrun & _). exists w. split; [exact Hrun|].
  apply (reachable_score_bounded to_first_food ∅ [1 # 4; 1 # 4]%Q w Hrun).
Defined.
